(** * tab-stash: the cache client (src/cache-client.ts)

    A shallow embedding of the [Cache] class and of the process-wide
    [CACHES] registry.  JavaScript objects have identity and are mutated in
    place, so the embedding keeps them in typed stores addressed by
    references: a [CacheEntry] handed out by [get] is a reference into the
    entry store, and "the same object" means "the same reference". *)

From stdpp Require Import gmap strings list fin_maps.

Local Open Scope string_scope.
Local Open Scope list_scope.

(** References into one of the object stores. *)
Abbreviation ref := positive (only parsing).

(** ** Data model *)

(** Modelled from the spec: the [Message] type is declared in
    [./cache-proto], which is not part of the sources at hand.  The wire
    shape is the three-field record [{type, key, value?}]; the tag is kept
    as a raw string because the listener has a [default] branch for tags
    outside the protocol, and a missing [value] reads as [undefined]. *)
Module Message.
Record t {Content : Type} : Type :=
  mk { type : string; key : string; value : option Content }.
Arguments t : clear implicits.
Arguments mk {Content} type key value.
End Message.

(** [{type: 'fetch', key}] *)
Definition Fetch {Content} (key : string) : Message.t Content :=
  Message.mk "fetch" key None.
(** [{type: 'entry', key, value}] *)
Definition Entry {Content} (key : string) (value : Content) : Message.t Content :=
  Message.mk "entry" key (Some value).
(** [{type: 'expiring', key}] *)
Definition Expiring {Content} (key : string) : Message.t Content :=
  Message.mk "expiring" key None.

(** [type CacheEntry<Content> = {key, value: Content | undefined, requested}] *)
Module CacheEntry.
Record t {Content : Type} : Type :=
  mk { key : string; value : option Content; requested : bool }.
Arguments t : clear implicits.
Arguments mk {Content} key value requested.
End CacheEntry.

(** The private fields of a [Cache] object.  [_local_cache] is a [Map] owned
    by the object and never handed out, so it is kept inline; its values are
    references to the entry objects. *)
Record Cache : Type :=
  mkCache { _local_cache : gmap string ref; _name : string; _service : ref }.

(** A [browser.runtime.Port]: its name, what has been posted on it (oldest
    first) and the [Cache] objects whose constructor subscribed a listener.
    The port belongs to the browser, not to this program; following the
    spec's transport contract it takes every message it is given. *)
Record Port {Content : Type} : Type :=
  mkPort { port_name : string;
           posted : list (Message.t Content);
           onDisconnect : list ref;
           onMessage : list ref }.
Arguments Port : clear implicits.
Arguments mkPort {Content} port_name posted onDisconnect onMessage.

Inductive ConsoleLine : Type :=
  | console_log_line (s : string)
  | console_warn_line (s : string).

(** The JS environment: the three object stores, the global [CACHES] map and
    the console. *)
Record World {Content : Type} : Type :=
  mkWorld { entries : gmap ref (CacheEntry.t Content);
            caches : gmap ref Cache;
            ports : gmap ref (Port Content);
            CACHES : gmap string ref;
            console : list ConsoleLine }.
Arguments World : clear implicits.
Arguments mkWorld {Content} entries caches ports CACHES console.

(** ** A state-and-exception monad for method bodies *)

(** The only exception the modelled code can raise is the [TypeError] of a
    property access through [undefined] (here: through a reference that
    names no object). *)
Inductive Error : Type := TypeError.

Inductive Result {Content : Type} (A : Type) : Type :=
  | Ok (a : A) (w : World Content)
  | Throw (e : Error).
Arguments Ok {Content A} a w.
Arguments Throw {Content A} e.

Definition M (Content : Type) (A : Type) : Type := World Content → Result (Content:=Content) A.

Definition ret {Content A} (a : A) : M Content A := λ w, Ok a w.

Definition bind {Content A B} (m : M Content A) (f : A → M Content B) : M Content B :=
  λ w, match m w with
       | Ok a w' => f a w'
       | Throw e => Throw e
       end.

Declare Scope js_scope.
Delimit Scope js_scope with js.
Notation "'let*' x ':=' m 'in' k" := (bind m (λ x, k))
  (at level 10, x name, m at level 100, k at level 200) : js_scope.
Notation "m ';;;' k" := (bind m (λ _, k))
  (at level 100, k at level 200, right associativity) : js_scope.

(** Modelled from the spec: the bound [Content extends CacheContent] comes
    from [./cache-proto] as well.  All the client needs of it is that a
    message with such a value can be serialised; the one place that does so
    itself is the [JSON.stringify] in the warning for unknown messages. *)
Class CacheContent (Content : Type) : Type :=
  JSON_stringify : Message.t Content → string.

Section CacheClient.
Context {Content : Type} {content_ok : CacheContent Content}.

Abbreviation World := (World Content).
Abbreviation Port := (Port Content).
Abbreviation Message := (Message.t Content).
Abbreviation CacheEntry := (CacheEntry.t Content).
Abbreviation M := (M Content).

Local Open Scope js_scope.

(** *** Store primitives *)

Definition with_entries (f : gmap positive CacheEntry → gmap positive CacheEntry) (w : World) : World :=
  mkWorld (f (entries w)) (caches w) (ports w) (CACHES w) (console w).
Definition with_caches (f : gmap positive Cache → gmap positive Cache) (w : World) : World :=
  mkWorld (entries w) (f (caches w)) (ports w) (CACHES w) (console w).
Definition with_ports (f : gmap positive Port → gmap positive Port) (w : World) : World :=
  mkWorld (entries w) (caches w) (f (ports w)) (CACHES w) (console w).
Definition with_CACHES (f : gmap string positive → gmap string positive) (w : World) : World :=
  mkWorld (entries w) (caches w) (ports w) (f (CACHES w)) (console w).
Definition with_console (f : list ConsoleLine → list ConsoleLine) (w : World) : World :=
  mkWorld (entries w) (caches w) (ports w) (CACHES w) (f (console w)).

(** Dereference an entry object. *)
Definition read_entry (ent : ref) : M CacheEntry :=
  λ w, match entries w !! ent with
       | Some e => Ok e w
       | None => Throw TypeError
       end.

(** Field assignment on an entry object: the object stays where it is. *)
Definition write_entry (ent : ref) (f : CacheEntry → CacheEntry) : M unit :=
  λ w, match entries w !! ent with
       | Some e => Ok tt (with_entries (insert ent (f e)) w)
       | None => Throw TypeError
       end.

(** An object literal [{key, value, requested}]: a new object. *)
Definition new_entry (e : CacheEntry) : M ref :=
  λ w, let ent := fresh (dom (entries w)) in
       Ok ent (with_entries (insert ent e) w).

Definition read_cache (this : ref) : M Cache :=
  λ w, match caches w !! this with
       | Some c => Ok c w
       | None => Throw TypeError
       end.

Definition write_cache (this : ref) (f : Cache → Cache) : M unit :=
  λ w, match caches w !! this with
       | Some c => Ok tt (with_caches (insert this (f c)) w)
       | None => Throw TypeError
       end.

Definition new_cache (c : Cache) : M ref :=
  λ w, let this := fresh (dom (caches w)) in
       Ok this (with_caches (insert this c) w).

Definition write_port (conn : ref) (f : Port → Port) : M unit :=
  λ w, match ports w !! conn with
       | Some p => Ok tt (with_ports (insert conn (f p)) w)
       | None => Throw TypeError
       end.

(** [browser.runtime.connect(undefined, {name})] *)
Definition connect (name : string) : M ref :=
  λ w, let conn := fresh (dom (ports w)) in
       Ok conn (with_ports (insert conn (mkPort name [] [] [])) w).

(** The port after [postMessage(m)]. *)
Definition port_post (m : Message) (p : Port) : Port :=
  mkPort (port_name p) ((posted p ++ [m])%list) (onDisconnect p) (onMessage p).

(** [port.postMessage(m)] *)
Definition postMessage (conn : ref) (m : Message) : M unit :=
  write_port conn (port_post m).

Definition onDisconnect_addListener (conn : ref) (this : ref) : M unit :=
  write_port conn (λ p, mkPort (port_name p) (posted p) ((onDisconnect p ++ [this])%list) (onMessage p)).

Definition onMessage_addListener (conn : ref) (this : ref) : M unit :=
  write_port conn (λ p, mkPort (port_name p) (posted p) (onDisconnect p) ((onMessage p ++ [this])%list)).

Definition console_log (s : string) : M unit :=
  λ w, Ok tt (with_console (λ c, (c ++ [console_log_line s])%list) w).

Definition console_warn (s : string) : M unit :=
  λ w, Ok tt (with_console (λ c, (c ++ [console_warn_line s])%list) w).

Definition set_value (v : option Content) (e : CacheEntry) : CacheEntry :=
  CacheEntry.mk (CacheEntry.key e) v (CacheEntry.requested e).

Definition set_requested (b : bool) (e : CacheEntry) : CacheEntry :=
  CacheEntry.mk (CacheEntry.key e) (CacheEntry.value e) b.

(** [this._local_cache.set(key, ent)] *)
Definition _local_cache_set (key : string) (ent : ref) (c : Cache) : Cache :=
  mkCache (<[key := ent]> (_local_cache c)) (_name c) (_service c).

(** *** The methods of [Cache] *)

(** [_send(m)]: [this._service.postMessage(m)] *)
Definition _send (this : ref) (m : Message) : M unit :=
  let* c := read_cache this in
  postMessage (_service c) m.

(** [_cached(key)] *)
Definition _cached (this : ref) (key : string) : M ref :=
  let* c := read_cache this in
  match _local_cache c !! key with
  | Some ent => ret ent
  | None =>
      let* ent := new_entry (CacheEntry.mk key None false) in
      write_cache this (_local_cache_set key ent) ;;;
      ret ent
  end.

(** [get(key)] *)
Definition get (this : ref) (key : string) : M ref :=
  let* ent := _cached this key in
  let* e := read_entry ent in
  (if negb (CacheEntry.requested e) then
     _send this (Fetch key) ;;;
     write_entry ent (set_requested true)
   else ret tt) ;;;
  ret ent.

(** [set(key, value)] *)
Definition set (this : ref) (key : string) (value : Content) : M ref :=
  let* ent := _cached this key in
  write_entry ent (set_value (Some value)) ;;;
  _send this (Entry key value) ;;;
  ret ent.

(** The [onMessage] listener installed by the constructor. *)
Definition onMessage_listener (this : ref) (m : Message) : M unit :=
  if decide (Message.type m = "entry") then
    let* c := read_cache this in
    match _local_cache c !! Message.key m with
    | Some ent => write_entry ent (set_value (Message.value m))
    | None => ret tt
    end
  else if decide (Message.type m = "expiring") then
    let* c := read_cache this in
    match _local_cache c !! Message.key m with
    | Some ent => write_entry ent (set_value None)
    | None => ret tt
    end
  else
    let* c := read_cache this in
    console_warn ("cache:" +:+ _name c +:+ ": Received unknown message: " +:+ JSON_stringify m).

(** The [onDisconnect] listener installed by the constructor. *)
Definition onDisconnect_listener (this : ref) : M unit :=
  let* c := read_cache this in
  console_log ("cache:" +:+ _name c +:+ ": Lost connection to service").

(** [constructor(name, conn)] *)
Definition constructor (name : string) (conn : ref) : M ref :=
  let* this := new_cache (mkCache ∅ name conn) in
  onDisconnect_addListener conn this ;;;
  onMessage_addListener conn this ;;;
  ret this.

(** [CACHES.get(name)] *)
Definition CACHES_get (name : string) : M (option ref) :=
  λ w, Ok (CACHES w !! name) w.

(** [CACHES.set(name, cache)] *)
Definition CACHES_set (name : string) (cache : ref) : M unit :=
  λ w, Ok tt (with_CACHES (insert name cache) w).

(** [static open(name)] *)
Definition open (name : string) : M ref :=
  let* cache := CACHES_get name in
  match cache with
  | Some cache => ret cache
  | None =>
      let* conn := connect ("cache:" +:+ name) in
      let* cache := constructor name conn in
      CACHES_set name cache ;;;
      ret cache
  end.

(** The browser handing an inbound message to the [onMessage] listeners of
    a port, in the order they subscribed. *)
Definition port_receive (conn : ref) (m : Message) : M unit :=
  λ w, match ports w !! conn with
       | Some p => foldr (λ this rest, onMessage_listener this m ;;; rest) (ret tt)
                     (onMessage p) w
       | None => Throw TypeError
       end.

(** *** Clients of one [Cache] object *)

(** What can happen to a [Cache] object once it exists: a call of one of
    its two public methods, or one of its listeners being run. *)
Inductive Call : Type :=
  | call_get (key : string)
  | call_set (key : string) (value : Content)
  | deliver (m : Message)
  | disconnect.

Definition run_call (this : ref) (c : Call) : M unit :=
  match c with
  | call_get key => get this key ;;; ret tt
  | call_set key value => set this key value ;;; ret tt
  | deliver m => onMessage_listener this m
  | disconnect => onDisconnect_listener this
  end.

Fixpoint run_calls (this : ref) (cs : list Call) : M unit :=
  match cs with
  | [] => ret tt
  | c :: cs' => run_call this c ;;; run_calls this cs'
  end.

(** What can happen in the JS environment as a whole. *)
Inductive Event : Type :=
  | ev_open (name : string)
  | ev_call (this : ref) (c : Call).

Definition run_event (e : Event) : M unit :=
  match e with
  | ev_open name => open name ;;; ret tt
  | ev_call this c => run_call this c
  end.

Fixpoint run_events (es : list Event) : M unit :=
  match es with
  | [] => ret tt
  | e :: es' => run_event e ;;; run_events es'
  end.

(** *** Observations *)

(** [this._local_cache.get(key)] as seen from outside. *)
Definition record_of (w : World) (this : ref) (key : string) : option ref :=
  caches w !! this ≫= λ c, _local_cache c !! key.

(** The fields of the record bound to [key], if there is one. *)
Definition entry_of (w : World) (this : ref) (key : string) : option CacheEntry :=
  record_of w this key ≫= λ ent, entries w !! ent.

(** Has [key] a record whose [requested] flag is set? *)
Definition requested_of (w : World) (this : ref) (key : string) : bool :=
  default false (CacheEntry.requested <$> entry_of w this key).

(** Everything posted so far on the port of [this], oldest first. *)
Definition sent (w : World) (this : ref) : list Message :=
  default [] (caches w !! this ≫= λ c, posted <$> ports w !! _service c).

Definition is_fetch_for (key : string) (m : Message) : bool :=
  bool_decide (Message.type m = "fetch") && bool_decide (Message.key m = key).

(** How many [Fetch{key}] messages a list of messages holds. *)
Definition fetches_for (key : string) (ms : list Message) : nat :=
  length (List.filter (is_fetch_for key) ms).

(** *** Well-formed [Cache] objects

    A reference [this] names a live [Cache] object whose port exists and
    whose map holds only live entry objects, each filed under its own
    [key] field.  Every object built by [open] satisfies this, and every
    method and listener keeps it. *)
Definition wf_cache (w : World) (this : ref) : Prop :=
  ∃ c, caches w !! this = Some c
       ∧ is_Some (ports w !! _service c)
       ∧ ∀ k ent, _local_cache c !! k = Some ent →
           ∃ e, entries w !! ent = Some e ∧ CacheEntry.key e = k.

(** Every [Cache] object in the store is well formed. *)
Definition all_wf (w : World) : Prop :=
  ∀ this, is_Some (caches w !! this) → wf_cache w this.

(** From [w] to [w'] no key of [this] lost its record or moved to another
    one, and no entry object vanished or changed its [key] field. *)
Definition keeps_records (this : ref) (w w' : World) : Prop :=
  (∀ k ent, record_of w this k = Some ent → record_of w' this k = Some ent)
  ∧ (∀ ent e, entries w !! ent = Some e →
       ∃ e', entries w' !! ent = Some e' ∧ CacheEntry.key e' = CacheEntry.key e).

(** Fetch accounting between two worlds: [this] has posted one more
    [Fetch{key}] exactly if the [requested] flag of [key] went from unset
    to set, and a set flag stays set. *)
Definition fetch_step (this : ref) (key : string) (w w' : World) : Prop :=
  fetches_for key (sent w' this) =
    fetches_for key (sent w this)
    + (if negb (requested_of w this key) && requested_of w' this key then 1 else 0)
  ∧ (requested_of w this key = true → requested_of w' this key = true).

(** The environment before any script has run. *)
Definition empty_world : World := mkWorld ∅ ∅ ∅ ∅ [].

(** The world a computation leaves behind ([w] itself if it throws). *)
Definition world_after {A} (m : M A) (w : World) : World :=
  match m w with
  | Ok _ w' => w'
  | Throw _ => w
  end.

(** The [value] field of the record bound to [key]; [undefined] also when
    there is no record. *)
Definition value_of (w : World) (this : ref) (key : string) : option Content :=
  entry_of w this key ≫= CacheEntry.value.

(** [wf_cache] as a check that can be run. *)
Definition wf_cacheb (w : World) (this : ref) : bool :=
  match caches w !! this with
  | Some c =>
      bool_decide (is_Some (ports w !! _service c))
      && forallb (λ kv, bool_decide (CacheEntry.key <$> entries w !! kv.2 = Some kv.1))
           (map_to_list (_local_cache c))
  | None => false
  end.

(** *** Vocabulary for the further properties *)

(** The key a call is about, if it is about one. *)
Definition call_key (call : Call) : option string :=
  match call with
  | call_get key => Some key
  | call_set key _ => Some key
  | deliver m => Some (Message.key m)
  | disconnect => None
  end.

(** Is the call one of the two listeners being run? *)
Definition is_listener (call : Call) : bool :=
  match call with
  | deliver _ | disconnect => true
  | call_get _ | call_set _ _ => false
  end.

(** Does the caller ask about [key] with this call, by [get] or by [set]? *)
Definition asks_for (key : string) (call : Call) : Prop :=
  call = call_get key ∨ ∃ value, call = call_set key value.

Definition is_entry (m : Message) : bool :=
  bool_decide (Message.type m = "entry").

(** The ['entry'] messages of a list of messages, in order. *)
Definition entries_posted (ms : list Message) : list Message :=
  List.filter is_entry ms.

(** The messages the [set] calls of a list of calls ask to be sent, in order. *)
Definition sets_of (calls : list Call) : list Message :=
  omap (λ call, match call with
                | call_set key value => Some (Entry key value)
                | _ => None
                end) calls.

(** A message whose handling assigns to [value]: ['entry'] or ['expiring']. *)
Definition overwrites (m : Message) : bool :=
  bool_decide (Message.type m = "entry") || bool_decide (Message.type m = "expiring").

(** Every name in [CACHES] stands for a live [Cache] of that name, whose
    port is live, is called ["cache:" + name], and has that [Cache] as its
    one [onMessage] and its one [onDisconnect] listener. *)
Definition registry_ok (w : World) : Prop :=
  ∀ name cache, CACHES w !! name = Some cache →
    ∃ c p, caches w !! cache = Some c
           ∧ _name c = name
           ∧ ports w !! _service c = Some p
           ∧ port_name p = "cache:" +:+ name
           ∧ onMessage p = [cache]
           ∧ onDisconnect p = [cache].

(** No two [Cache] objects share an entry object or a port. *)
Definition separate (w : World) : Prop :=
  (∀ this that k1 k2 ent, this ≠ that →
     record_of w this k1 = Some ent → record_of w that k2 ≠ Some ent)
  ∧ (∀ this that c1 c2, this ≠ that →
       caches w !! this = Some c1 → caches w !! that = Some c2 →
       _service c1 ≠ _service c2).

(** Is the event a call on [this]? *)
Definition targets (this : ref) (ev : Event) : Prop :=
  ∃ call, ev = ev_call this call.

(** The message is one a caller asked for with one of the calls: the
    [Fetch] of a [get] or the [Entry] of a [set]. *)
Definition asked_by (calls : list Call) (m : Message) : Prop :=
  (∃ key, m = Fetch key ∧ call_get key ∈ calls)
  ∨ (∃ key value, m = Entry key value ∧ call_set key value ∈ calls).

(** The call assigns to the [value] of [key] whatever it was before: a
    [set(key, _)], or an inbound ['entry'] or ['expiring'] for [key]. *)
Definition writes_value (key : string) (call : Call) : Prop :=
  (∃ value, call = call_set key value)
  ∨ (∃ m, call = deliver m ∧ overwrites m = true ∧ Message.key m = key).

(** The invariant of the environments a page can reach. *)
Definition sound (w : World) : Prop :=
  all_wf w ∧ registry_ok w ∧ separate w.

End CacheClient.

(** ** A concrete environment

    Cache values are strings, the cache is the spec's ["settings"], and the
    page has looked up ["theme"] once. *)
Module Demo.

#[global] Instance string_content : CacheContent string :=
  λ m, Message.type m +:+ ":" +:+ Message.key m +:+ "=" +:+ default "undefined" (Message.value m).

(** After [Cache.open("settings")]: the new object is reference [1]. *)
Definition opened : World string :=
  world_after (open "settings") empty_world.

(** After [Cache.open("settings").get("theme")]: the record is reference [1]. *)
Definition fetched : World string :=
  world_after (get 1 "theme") opened.

(** After the service answered with [Entry{theme, dark}]. *)
Definition answered : World string :=
  world_after (onMessage_listener 1 (Entry "theme" "dark")) fetched.

(** A page with two caches: it opens ["settings"] (reference [1]) and
    ["favicons"] (reference [2]), looks up a theme and stores an icon. *)
Definition script : list (Event (Content:=string)) :=
  [ev_open "settings"; ev_open "favicons";
   ev_call 1 (call_get "theme"); ev_call 2 (call_set "example.com" "icon")].

Definition two_caches : World string :=
  world_after (run_events script) empty_world.

(** The ["theme"] record in [answered]. *)
Definition theme_dark : CacheEntry.t string :=
  CacheEntry.mk "theme" (Some "dark") true.

End Demo.

Section CacheClientFacts.
Context {Content : Type} {content_ok : CacheContent Content}.

Abbreviation World := (World Content).
Abbreviation Port := (Port Content).
Abbreviation Message := (Message.t Content).
Abbreviation CacheEntry := (CacheEntry.t Content).
Abbreviation M := (M Content).

Implicit Types (w : World) (this ent : positive) (key : string) (c : Cache).
Implicit Types (m : Message) (ms : list Message) (e : CacheEntry) (p : Port).
Implicit Types (call : Call (Content:=Content)) (calls : list (Call (Content:=Content))).

(** ** Exact results of the methods *)

Lemma _cached_hit w this c key ent :
  caches w !! this = Some c →
  _local_cache c !! key = Some ent →
  _cached this key w = Ok ent w.
Proof.
  intros Hc Hk. unfold _cached, bind, read_cache. by rewrite Hc, Hk.
Qed.

Lemma _cached_miss w this c key :
  caches w !! this = Some c →
  _local_cache c !! key = None →
  _cached this key w =
    let ent := fresh (dom (entries w)) in
    Ok ent (mkWorld (<[ent := CacheEntry.mk key None false]> (entries w))
                    (<[this := _local_cache_set key ent c]> (caches w))
                    (ports w) (CACHES w) (console w)).
Proof.
  intros Hc Hk. unfold _cached, bind, read_cache. rewrite Hc, Hk.
  unfold new_entry, write_cache, with_entries, with_caches, ret. simpl.
  by rewrite Hc.
Qed.

Lemma _send_ok w this c p m :
  caches w !! this = Some c →
  ports w !! _service c = Some p →
  _send this m w =
    Ok tt (mkWorld (entries w) (caches w)
             (<[_service c := port_post m p]> (ports w))
             (CACHES w) (console w)).
Proof.
  intros Hc Hp. unfold _send, bind, read_cache, postMessage, write_port.
  by rewrite Hc, Hp.
Qed.

Lemma fresh_entry_None (w : World) : entries w !! fresh (dom (entries w)) = None.
Proof. apply not_elem_of_dom, is_fresh. Qed.

Lemma get_miss w this c p key :
  caches w !! this = Some c →
  ports w !! _service c = Some p →
  _local_cache c !! key = None →
  get this key w =
    let ent := fresh (dom (entries w)) in
    Ok ent (mkWorld (<[ent := CacheEntry.mk key None true]> (entries w))
                    (<[this := _local_cache_set key ent c]> (caches w))
                    (<[_service c := port_post (Fetch key) p]> (ports w))
                    (CACHES w) (console w)).
Proof.
  intros Hc Hp Hk. unfold get, bind. rewrite (_cached_miss _ _ _ _ Hc Hk). simpl.
  unfold read_entry. simpl. rewrite lookup_insert_eq. simpl.
  erewrite _send_ok; [| simpl; apply lookup_insert_eq | simpl; exact Hp].
  unfold write_entry, with_entries, ret. simpl.
  by rewrite lookup_insert_eq, insert_insert_eq.
Qed.

Lemma get_hit_first w this c p key ent e :
  caches w !! this = Some c →
  ports w !! _service c = Some p →
  _local_cache c !! key = Some ent →
  entries w !! ent = Some e →
  CacheEntry.requested e = false →
  get this key w =
    Ok ent (mkWorld (<[ent := set_requested true e]> (entries w))
                    (caches w)
                    (<[_service c := port_post (Fetch key) p]> (ports w))
                    (CACHES w) (console w)).
Proof.
  intros Hc Hp Hk He Hr. unfold get, bind. rewrite (_cached_hit _ _ _ _ _ Hc Hk).
  unfold read_entry. rewrite He, Hr. simpl.
  rewrite (_send_ok _ _ _ _ _ Hc Hp).
  unfold write_entry, with_entries, ret. simpl.
  by rewrite He.
Qed.

Lemma get_hit_again w this c key ent e :
  caches w !! this = Some c →
  _local_cache c !! key = Some ent →
  entries w !! ent = Some e →
  CacheEntry.requested e = true →
  get this key w = Ok ent w.
Proof.
  intros Hc Hk He Hr. unfold get, bind. rewrite (_cached_hit _ _ _ _ _ Hc Hk).
  unfold read_entry. by rewrite He, Hr.
Qed.

Lemma set_miss w this c p key value :
  caches w !! this = Some c →
  ports w !! _service c = Some p →
  _local_cache c !! key = None →
  set this key value w =
    let ent := fresh (dom (entries w)) in
    Ok ent (mkWorld (<[ent := CacheEntry.mk key (Some value) false]> (entries w))
                    (<[this := _local_cache_set key ent c]> (caches w))
                    (<[_service c := port_post (Entry key value) p]> (ports w))
                    (CACHES w) (console w)).
Proof.
  intros Hc Hp Hk. unfold set, bind. rewrite (_cached_miss _ _ _ _ Hc Hk). simpl.
  unfold write_entry, with_entries. simpl. rewrite lookup_insert_eq, insert_insert_eq.
  erewrite _send_ok; [| simpl; apply lookup_insert_eq | simpl; exact Hp].
  done.
Qed.

Lemma set_hit w this c p key value ent e :
  caches w !! this = Some c →
  ports w !! _service c = Some p →
  _local_cache c !! key = Some ent →
  entries w !! ent = Some e →
  set this key value w =
    Ok ent (mkWorld (<[ent := set_value (Some value) e]> (entries w))
                    (caches w)
                    (<[_service c := port_post (Entry key value) p]> (ports w))
                    (CACHES w) (console w)).
Proof.
  intros Hc Hp Hk He. unfold set, bind. rewrite (_cached_hit _ _ _ _ _ Hc Hk).
  unfold write_entry, with_entries. rewrite He.
  erewrite _send_ok; [| exact Hc | exact Hp].
  done.
Qed.

Lemma listener_entry_hit w this c m ent e :
  Message.type m = "entry" →
  caches w !! this = Some c →
  _local_cache c !! Message.key m = Some ent →
  entries w !! ent = Some e →
  onMessage_listener this m w =
    Ok tt (mkWorld (<[ent := set_value (Message.value m) e]> (entries w))
                   (caches w) (ports w) (CACHES w) (console w)).
Proof.
  intros Ht Hc Hk He. unfold onMessage_listener.
  rewrite decide_True by done.
  unfold bind, read_cache, write_entry. by rewrite Hc, Hk, He.
Qed.

Lemma listener_entry_miss w this c m :
  Message.type m = "entry" →
  caches w !! this = Some c →
  _local_cache c !! Message.key m = None →
  onMessage_listener this m w = Ok tt w.
Proof.
  intros Ht Hc Hk. unfold onMessage_listener.
  rewrite decide_True by done.
  unfold bind, read_cache. by rewrite Hc, Hk.
Qed.

Lemma listener_expiring_hit w this c m ent e :
  Message.type m = "expiring" →
  caches w !! this = Some c →
  _local_cache c !! Message.key m = Some ent →
  entries w !! ent = Some e →
  onMessage_listener this m w =
    Ok tt (mkWorld (<[ent := set_value None e]> (entries w))
                   (caches w) (ports w) (CACHES w) (console w)).
Proof.
  intros Ht Hc Hk He. unfold onMessage_listener.
  rewrite decide_False by (rewrite Ht; done).
  rewrite decide_True by done.
  unfold bind, read_cache, write_entry. by rewrite Hc, Hk, He.
Qed.

Lemma listener_expiring_miss w this c m :
  Message.type m = "expiring" →
  caches w !! this = Some c →
  _local_cache c !! Message.key m = None →
  onMessage_listener this m w = Ok tt w.
Proof.
  intros Ht Hc Hk. unfold onMessage_listener.
  rewrite decide_False by (rewrite Ht; done).
  rewrite decide_True by done.
  unfold bind, read_cache. by rewrite Hc, Hk.
Qed.

Lemma listener_other w this c m :
  Message.type m ≠ "entry" →
  Message.type m ≠ "expiring" →
  caches w !! this = Some c →
  onMessage_listener this m w =
    Ok tt (mkWorld (entries w) (caches w) (ports w) (CACHES w)
             (console w ++ [console_warn_line
                ("cache:" +:+ _name c +:+ ": Received unknown message: " +:+ JSON_stringify m)])).
Proof.
  intros Ht1 Ht2 Hc. unfold onMessage_listener.
  rewrite !decide_False by done.
  unfold bind, read_cache. by rewrite Hc.
Qed.

(** ** Observations of the result worlds *)

Lemma fetches_for_app key ms m :
  fetches_for key (ms ++ [m]) =
    fetches_for key ms + (if is_fetch_for key m then 1 else 0).
Proof.
  unfold fetches_for. rewrite List.filter_app, length_app. simpl.
  by destruct (is_fetch_for key m).
Qed.

Lemma is_fetch_for_Fetch key k :
  is_fetch_for key (Fetch k : Message) = bool_decide (k = key).
Proof. done. Qed.

Lemma is_fetch_for_Entry key k (v : Content) : is_fetch_for key (Entry k v) = false.
Proof. done. Qed.

Lemma sent_eq w this c p :
  caches w !! this = Some c →
  ports w !! _service c = Some p →
  sent w this = posted p.
Proof. intros Hc Hp. unfold sent. by rewrite Hc; simpl; rewrite Hp. Qed.

Lemma record_of_eq w this c key :
  caches w !! this = Some c →
  record_of w this key = _local_cache c !! key.
Proof. intros Hc. unfold record_of. by rewrite Hc. Qed.

Lemma requested_of_eq w this key ent e :
  record_of w this key = Some ent →
  entries w !! ent = Some e →
  requested_of w this key = CacheEntry.requested e.
Proof. intros Hk He. unfold requested_of, entry_of. by rewrite Hk; simpl; rewrite He. Qed.

Lemma requested_of_None w this key :
  record_of w this key = None →
  requested_of w this key = false.
Proof. intros Hk. unfold requested_of, entry_of. by rewrite Hk. Qed.

(** A live record is never the one the next object literal will get. *)
Lemma live_not_fresh (w : World) ent e :
  entries w !! ent = Some e → ent ≠ fresh (dom (entries w)).
Proof. intros He ->. by rewrite fresh_entry_None in He. Qed.

Lemma obs_same w w' this :
  entries w' = entries w → caches w' = caches w → ports w' = ports w →
  (wf_cache w this → wf_cache w' this)
  ∧ keeps_records this w w'
  ∧ sent w' this = sent w this
  ∧ ∀ k, requested_of w' this k = requested_of w this k.
Proof.
  intros HE HC HP.
  unfold wf_cache, keeps_records, sent, requested_of, entry_of, record_of.
  rewrite HE, HC, HP. repeat split; eauto.
Qed.

(** A field assignment on the record of [key0] that leaves [key] alone. *)
Lemma obs_update w w' this c ent e e' key0 p' :
  wf_cache w this →
  caches w !! this = Some c →
  _local_cache c !! key0 = Some ent →
  entries w !! ent = Some e →
  CacheEntry.key e' = CacheEntry.key e →
  entries w' = <[ent := e']> (entries w) →
  caches w' = caches w →
  ports w' !! _service c = Some p' →
  wf_cache w' this
  ∧ keeps_records this w w'
  ∧ sent w' this = posted p'
  ∧ ∀ k, requested_of w' this k =
           if decide (k = key0) then CacheEntry.requested e' else requested_of w this k.
Proof.
  intros (c0 & Hc0 & _ & Hrec) Hc Hk He Hkey HE HC HP.
  rewrite Hc in Hc0. injection Hc0 as <-.
  assert (Hc' : caches w' !! this = Some c) by (by rewrite HC).
  split; [| split; [| split]].
  - exists c. split; [done |]. split; [by eexists |].
    intros k l Hl. rewrite HE.
    destruct (decide (l = ent)) as [-> | Hne].
    + rewrite lookup_insert_eq. eexists. split; [done |].
      destruct (Hrec _ _ Hl) as (e0 & He0 & <-). congruence.
    + rewrite lookup_insert_ne by done. by apply Hrec.
  - split.
    + intros k l. by rewrite !(record_of_eq _ _ c).
    + intros l e0 He0. rewrite HE.
      destruct (decide (l = ent)) as [-> | Hne].
      * rewrite lookup_insert_eq. eexists. split; [done | congruence].
      * rewrite lookup_insert_ne by done. eauto.
  - by apply (sent_eq _ _ c).
  - intros k. case_decide as Hkk.
    + subst k. apply (requested_of_eq _ _ _ ent).
      * by rewrite (record_of_eq _ _ c).
      * by rewrite HE, lookup_insert_eq.
    + unfold requested_of, entry_of. rewrite !(record_of_eq _ _ c) by done.
      destruct (_local_cache c !! k) as [l |] eqn:Hl; [| done]. simpl.
      rewrite HE, lookup_insert_ne; [done |].
      intros <-. destruct (Hrec _ _ Hl) as (e1 & He1 & Hk1).
      destruct (Hrec _ _ Hk) as (e2 & He2 & Hk2). congruence.
Qed.

(** [_cached] making the record of [key0]. *)
Lemma obs_alloc w w' this c e' key0 p' :
  wf_cache w this →
  caches w !! this = Some c →
  _local_cache c !! key0 = None →
  CacheEntry.key e' = key0 →
  entries w' = <[fresh (dom (entries w)) := e']> (entries w) →
  caches w' = <[this := _local_cache_set key0 (fresh (dom (entries w))) c]> (caches w) →
  ports w' !! _service c = Some p' →
  wf_cache w' this
  ∧ keeps_records this w w'
  ∧ sent w' this = posted p'
  ∧ ∀ k, requested_of w' this k =
           if decide (k = key0) then CacheEntry.requested e' else requested_of w this k.
Proof.
  intros (c0 & Hc0 & _ & Hrec) Hc Hk Hkey HE HC HP.
  rewrite Hc in Hc0. injection Hc0 as <-.
  set (ent := fresh (dom (entries w))) in *.
  assert (Hc' : caches w' !! this = Some (_local_cache_set key0 ent c))
    by (by rewrite HC, lookup_insert_eq).
  assert (Hfar : ∀ k l, _local_cache c !! k = Some l → l ≠ ent).
  { intros k l Hl. destruct (Hrec _ _ Hl) as (e0 & He0 & _).
    by apply (live_not_fresh _ _ e0). }
  assert (Hrec' : ∀ k, record_of w' this k =
                         if decide (k = key0) then Some ent else _local_cache c !! k).
  { intros k. rewrite (record_of_eq _ _ _ _ Hc'). simpl.
    case_decide as Hkk; [subst k; apply lookup_insert_eq |].
    by rewrite lookup_insert_ne. }
  split; [| split; [| split]].
  - eexists. split; [exact Hc' |]. split; [by eexists |].
    intros k l Hl. rewrite <- (record_of_eq _ _ _ _ Hc'), Hrec' in Hl.
    rewrite HE. case_decide as Hkk.
    + injection Hl as <-. subst k. rewrite lookup_insert_eq. by eexists.
    + rewrite lookup_insert_ne by (apply not_eq_sym; eauto). eauto.
  - split.
    + intros k l. rewrite (record_of_eq _ _ c), Hrec' by done.
      intros Hl. case_decide as Hkk; [congruence | done].
    + intros l e0 He0. rewrite HE, lookup_insert_ne; [eauto |].
      apply not_eq_sym. by apply (live_not_fresh _ _ e0).
  - by apply (sent_eq _ _ _ _ Hc').
  - intros k. unfold requested_of, entry_of. rewrite Hrec'.
    rewrite (record_of_eq _ _ c) by done.
    case_decide as Hkk.
    + simpl. by rewrite HE, lookup_insert_eq.
    + destruct (_local_cache c !! k) as [l |] eqn:Hl; [| done]. simpl.
      rewrite HE, lookup_insert_ne; [done |]. apply not_eq_sym. eauto.
Qed.

(** ** One call on a well-formed [Cache] *)

Lemma fetch_step_quiet this key w w' :
  sent w' this = sent w this →
  requested_of w' this key = requested_of w this key →
  fetch_step this key w w'.
Proof.
  intros Hs Hr. unfold fetch_step. rewrite Hs, Hr.
  destruct (requested_of w this key); simpl; auto with lia.
Qed.

Lemma fetch_step_entry this key w w' k v :
  sent w' this = sent w this ++ [Entry k v] →
  requested_of w' this key = requested_of w this key →
  fetch_step this key w w'.
Proof.
  intros Hs Hr. unfold fetch_step. rewrite Hs, Hr, fetches_for_app, is_fetch_for_Entry.
  destruct (requested_of w this key); simpl; auto with lia.
Qed.

Lemma fetch_step_fetch this key w w' k :
  sent w' this = sent w this ++ [Fetch k] →
  requested_of w this k = false →
  (requested_of w' this key = if decide (key = k) then true else requested_of w this key) →
  fetch_step this key w w'.
Proof.
  intros Hs Hk Hr. unfold fetch_step. rewrite Hs, Hr, fetches_for_app, is_fetch_for_Fetch.
  case_decide as Hkk.
  - subst k. rewrite Hk, bool_decide_eq_true_2 by done. simpl. auto with lia.
  - rewrite bool_decide_eq_false_2 by (by apply not_eq_sym).
    destruct (requested_of w this key); simpl; auto with lia.
Qed.

(** A step that posts nothing and flips no flag. *)
Lemma quiet_call w w' this call :
  (∀ key, call ≠ call_get key) →
  wf_cache w' this →
  keeps_records this w w' →
  sent w' this = sent w this →
  (∀ k, requested_of w' this k = requested_of w this k) →
  wf_cache w' this
  ∧ keeps_records this w w'
  ∧ ∀ key, fetch_step this key w w'
           ∧ (call = call_get key → requested_of w' this key = true)
           ∧ (call ≠ call_get key →
                requested_of w' this key = requested_of w this key).
Proof.
  intros Hcall Hwf' Hkeep Hs Hq. split; [done |]. split; [done |].
  intros key. split; [by apply fetch_step_quiet |].
  split; [intros Heq; by destruct (Hcall key) | by intros _].
Qed.

Lemma run_call_step w this call :
  wf_cache w this →
  ∃ w', run_call this call w = Ok tt w'
        ∧ wf_cache w' this
        ∧ keeps_records this w w'
        ∧ ∀ key, fetch_step this key w w'
                 ∧ (call = call_get key → requested_of w' this key = true)
                 ∧ (call ≠ call_get key →
                      requested_of w' this key = requested_of w this key).
Proof.
  intros Hwf. pose proof Hwf as (c & Hc & [p Hp] & Hrec).
  pose proof (sent_eq _ _ _ _ Hc Hp) as Hsent.
  destruct call as [key0 | key0 v | m |]; simpl; unfold bind.
  - (* get *)
    destruct (_local_cache c !! key0) as [ent |] eqn:Hk.
    + destruct (Hrec _ _ Hk) as (e & He & Hkey).
      pose proof (requested_of_eq w this key0 ent e) as Hreq.
      rewrite (record_of_eq _ _ c) in Hreq by done. specialize (Hreq Hk He).
      destruct (CacheEntry.requested e) eqn:Hr.
      * rewrite (get_hit_again _ _ _ _ _ _ Hc Hk He Hr). eexists. split; [done |].
        split; [done |]. split; [by destruct (obs_same w w this) as (_ & ? & _) |].
        intros key. split; [by apply fetch_step_quiet |].
        split; [by intros [= <-] | done].
      * rewrite (get_hit_first _ _ _ _ _ _ _ Hc Hp Hk He Hr). eexists. split; [done |].
        match goal with |- wf_cache ?w' _ ∧ _ =>
          destruct (obs_update w w' this c ent e (set_requested true e) key0
                      (port_post (Fetch key0) p) Hwf Hc Hk He eq_refl eq_refl eq_refl
                      (lookup_insert_eq _ _ _)) as (Hwf' & Hkeep & Hs & Hq)
        end.
        split; [exact Hwf' |]. split; [exact Hkeep |].
        intros key. split; [| split].
        -- eapply fetch_step_fetch; [by rewrite Hs, Hsent | done | apply Hq].
        -- intros [= <-]. rewrite Hq. by rewrite decide_True.
        -- intros Hne. rewrite Hq. rewrite decide_False; [done | congruence].
    + assert (Hreq : requested_of w this key0 = false).
      { apply requested_of_None. by rewrite (record_of_eq _ _ c). }
      rewrite (get_miss _ _ _ _ _ Hc Hp Hk). simpl. eexists. split; [done |].
      match goal with |- wf_cache ?w' _ ∧ _ =>
        destruct (obs_alloc w w' this c (CacheEntry.mk key0 None true) key0
                    (port_post (Fetch key0) p) Hwf Hc Hk eq_refl eq_refl eq_refl
                    (lookup_insert_eq _ _ _)) as (Hwf' & Hkeep & Hs & Hq)
      end.
      split; [exact Hwf' |]. split; [exact Hkeep |].
      intros key. split; [| split].
      * eapply fetch_step_fetch; [by rewrite Hs, Hsent | done | apply Hq].
      * intros [= <-]. rewrite Hq. by rewrite decide_True.
      * intros Hne. rewrite Hq. rewrite decide_False; [done | congruence].
  - (* set *)
    destruct (_local_cache c !! key0) as [ent |] eqn:Hk.
    + destruct (Hrec _ _ Hk) as (e & He & Hkey).
      pose proof (requested_of_eq w this key0 ent e) as Hreq.
      rewrite (record_of_eq _ _ c) in Hreq by done. specialize (Hreq Hk He).
      rewrite (set_hit _ _ _ _ _ _ _ _ Hc Hp Hk He). eexists. split; [done |].
      match goal with |- wf_cache ?w' _ ∧ _ =>
        destruct (obs_update w w' this c ent e (set_value (Some v) e) key0
                    (port_post (Entry key0 v) p) Hwf Hc Hk He eq_refl eq_refl eq_refl
                    (lookup_insert_eq _ _ _)) as (Hwf' & Hkeep & Hs & Hq)
      end.
      split; [exact Hwf' |]. split; [exact Hkeep |].
      intros key.
      assert (Hsame : requested_of w this key
                      = if decide (key = key0) then CacheEntry.requested e
                        else requested_of w this key)
        by (case_decide; [by subst | done]).
      rewrite <- Hq in Hsame. split; [| split; [done | by intros _]].
      eapply fetch_step_entry; [by rewrite Hs, Hsent | done].
    + assert (Hreq : requested_of w this key0 = false).
      { apply requested_of_None. by rewrite (record_of_eq _ _ c). }
      rewrite (set_miss _ _ _ _ _ _ Hc Hp Hk). simpl. eexists. split; [done |].
      match goal with |- wf_cache ?w' _ ∧ _ =>
        destruct (obs_alloc w w' this c (CacheEntry.mk key0 (Some v) false) key0
                    (port_post (Entry key0 v) p) Hwf Hc Hk eq_refl eq_refl eq_refl
                    (lookup_insert_eq _ _ _)) as (Hwf' & Hkeep & Hs & Hq)
      end.
      split; [exact Hwf' |]. split; [exact Hkeep |].
      intros key.
      assert (Hsame : requested_of w this key
                      = if decide (key = key0) then false
                        else requested_of w this key)
        by (case_decide; [by subst | done]).
      rewrite <- Hq in Hsame. split; [| split; [done | by intros _]].
      eapply fetch_step_entry; [by rewrite Hs, Hsent | done].
  - (* an inbound message *)
    assert (Hsilent : ∀ ent e v, _local_cache c !! Message.key m = Some ent →
              entries w !! ent = Some e →
              let w' := mkWorld (<[ent := set_value v e]> (entries w))
                          (caches w) (ports w) (CACHES w) (console w) in
              wf_cache w' this ∧ keeps_records this w w'
              ∧ ∀ key, fetch_step this key w w'
                  ∧ (deliver m = call_get key → requested_of w' this key = true)
                  ∧ (deliver m ≠ call_get key →
                       requested_of w' this key = requested_of w this key)).
    { intros ent e v Hk He w'.
      destruct (obs_update w w' this c ent e (set_value v e) (Message.key m) p
                  Hwf Hc Hk He eq_refl eq_refl eq_refl Hp) as (Hwf' & Hkeep & Hs & Hq).
      apply quiet_call; [done | done | done | by rewrite Hs, Hsent |].
      intros k. rewrite Hq. case_decide as Hkk; [| done]. subst k. simpl.
      symmetry. apply (requested_of_eq _ _ _ ent); [| done].
      by rewrite (record_of_eq _ _ c). }
    assert (Hsame : wf_cache w this ∧ keeps_records this w w
              ∧ ∀ key, fetch_step this key w w
                  ∧ (deliver m = call_get key → requested_of w this key = true)
                  ∧ (deliver m ≠ call_get key →
                       requested_of w this key = requested_of w this key)).
    { destruct (obs_same w w this) as (_ & Hkeep & _); try done.
      by apply quiet_call. }
    destruct (decide (Message.type m = "entry")) as [Ht | Ht];
      [| destruct (decide (Message.type m = "expiring")) as [Ht' | Ht']].
    + destruct (_local_cache c !! Message.key m) as [ent |] eqn:Hk.
      * destruct (Hrec _ _ Hk) as (e & He & Hkey).
        rewrite (listener_entry_hit _ _ _ _ _ _ Ht Hc Hk He).
        eexists. split; [done |]. by apply Hsilent.
      * rewrite (listener_entry_miss _ _ _ _ Ht Hc Hk). by eexists.
    + destruct (_local_cache c !! Message.key m) as [ent |] eqn:Hk.
      * destruct (Hrec _ _ Hk) as (e & He & Hkey).
        rewrite (listener_expiring_hit _ _ _ _ _ _ Ht' Hc Hk He).
        eexists. split; [done |]. by apply Hsilent.
      * rewrite (listener_expiring_miss _ _ _ _ Ht' Hc Hk). by eexists.
    + rewrite (listener_other _ _ _ _ Ht Ht' Hc). eexists. split; [done |].
      match goal with |- wf_cache ?w' _ ∧ _ =>
        destruct (obs_same w w' this eq_refl eq_refl eq_refl) as (Hwf' & Hkeep & Hs & Hq)
      end.
      apply quiet_call; auto.
  - (* the port went away *)
    unfold onDisconnect_listener, bind, read_cache, console_log. rewrite Hc.
    eexists. split; [done |].
    match goal with |- wf_cache ?w' _ ∧ _ =>
      destruct (obs_same w w' this eq_refl eq_refl eq_refl) as (Hwf' & Hkeep & Hs & Hq)
    end.
    apply quiet_call; auto.
Qed.

(** ** What [get] and [set] do, in terms of the observations *)

Lemma get_spec w this key :
  wf_cache w this →
  ∃ ent w',
    get this key w = Ok ent w'
    ∧ wf_cache w' this
    ∧ record_of w' this key = Some ent
    ∧ (∀ ent0, record_of w this key = Some ent0 → ent0 = ent)
    ∧ (record_of w this key = None → entries w !! ent = None)
    ∧ entries w' !! ent = Some (CacheEntry.mk key (value_of w this key) true)
    ∧ sent w' this = sent w this ++ (if requested_of w this key then [] else [Fetch key])
    ∧ (requested_of w this key = true → w' = w).
Proof.
  intros Hwf. pose proof Hwf as (c & Hc & [p Hp] & Hrec).
  pose proof (sent_eq _ _ _ _ Hc Hp) as Hsent.
  unfold value_of, entry_of. rewrite (record_of_eq _ _ _ key Hc).
  destruct (_local_cache c !! key) as [ent |] eqn:Hk.
  - destruct (Hrec _ _ Hk) as (e & He & Hkey).
    pose proof (requested_of_eq w this key ent e) as Hreq.
    rewrite (record_of_eq _ _ c) in Hreq by done. specialize (Hreq Hk He).
    rewrite Hreq. simpl. rewrite He. simpl.
    destruct (CacheEntry.requested e) eqn:Hr.
    + rewrite (get_hit_again _ _ _ _ _ _ Hc Hk He Hr). exists ent, w.
      rewrite (record_of_eq _ _ _ key Hc), app_nil_r.
      repeat split; try done; [by intros ? [= ->] |].
      rewrite He. f_equal. destruct e; simpl in *. by subst.
    + rewrite (get_hit_first _ _ _ _ _ _ _ Hc Hp Hk He Hr). eexists ent, _.
      split; [done |].
      match goal with |- wf_cache ?w' _ ∧ _ =>
        destruct (obs_update w w' this c ent e (set_requested true e) key
                    (port_post (Fetch key) p) Hwf Hc Hk He eq_refl eq_refl eq_refl
                    (lookup_insert_eq _ _ _)) as (Hwf' & Hkeep & Hs & Hq)
      end.
      split; [done |]. rewrite Hs, Hsent. simpl.
      rewrite (record_of_eq _ _ c) by done. rewrite lookup_insert_eq.
      repeat split; try done; [by intros ? [= ->] |].
      unfold set_requested. by rewrite Hkey.
  - assert (Hreq : requested_of w this key = false).
    { apply requested_of_None. by rewrite (record_of_eq _ _ c). }
    rewrite Hreq. rewrite (get_miss _ _ _ _ _ Hc Hp Hk). simpl. eexists _, _.
    split; [done |].
    match goal with |- wf_cache ?w' _ ∧ _ =>
      destruct (obs_alloc w w' this c (CacheEntry.mk key None true) key
                  (port_post (Fetch key) p) Hwf Hc Hk eq_refl eq_refl eq_refl
                  (lookup_insert_eq _ _ _)) as (Hwf' & Hkeep & Hs & Hq)
    end.
    split; [done |]. rewrite Hs, Hsent. simpl.
    unfold record_of. simpl. rewrite !lookup_insert_eq. simpl. rewrite lookup_insert_eq.
    repeat split; try done. intros _. apply fresh_entry_None.
Qed.

Lemma set_spec w this key (v : Content) :
  wf_cache w this →
  ∃ ent w',
    set this key v w = Ok ent w'
    ∧ wf_cache w' this
    ∧ record_of w' this key = Some ent
    ∧ (∀ ent0, record_of w this key = Some ent0 → ent0 = ent)
    ∧ (record_of w this key = None → entries w !! ent = None)
    ∧ entries w' !! ent = Some (CacheEntry.mk key (Some v) (requested_of w this key))
    ∧ sent w' this = sent w this ++ [Entry key v]
    ∧ ∀ k, requested_of w' this k = requested_of w this k.
Proof.
  intros Hwf. pose proof Hwf as (c & Hc & [p Hp] & Hrec).
  pose proof (sent_eq _ _ _ _ Hc Hp) as Hsent.
  rewrite (record_of_eq _ _ _ key Hc).
  destruct (_local_cache c !! key) as [ent |] eqn:Hk.
  - destruct (Hrec _ _ Hk) as (e & He & Hkey).
    pose proof (requested_of_eq w this key ent e) as Hreq.
    rewrite (record_of_eq _ _ c) in Hreq by done. specialize (Hreq Hk He).
    rewrite (set_hit _ _ _ _ _ _ _ _ Hc Hp Hk He). eexists ent, _.
    split; [done |].
    match goal with |- wf_cache ?w' _ ∧ _ =>
      destruct (obs_update w w' this c ent e (set_value (Some v) e) key
                  (port_post (Entry key v) p) Hwf Hc Hk He eq_refl eq_refl eq_refl
                  (lookup_insert_eq _ _ _)) as (Hwf' & Hkeep & Hs & Hq)
    end.
    split; [done |]. rewrite Hs, Hsent. simpl.
    rewrite (record_of_eq _ _ c) by done. rewrite lookup_insert_eq.
    repeat split; try done; [by intros ? [= ->] | |].
    + unfold set_value. by rewrite Hkey, Hreq.
    + intros k. rewrite Hq. case_decide; [by subst | done].
  - assert (Hreq : requested_of w this key = false).
    { apply requested_of_None. by rewrite (record_of_eq _ _ c). }
    rewrite Hreq. rewrite (set_miss _ _ _ _ _ _ Hc Hp Hk). simpl. eexists _, _.
    split; [done |].
    match goal with |- wf_cache ?w' _ ∧ _ =>
      destruct (obs_alloc w w' this c (CacheEntry.mk key (Some v) false) key
                  (port_post (Entry key v) p) Hwf Hc Hk eq_refl eq_refl eq_refl
                  (lookup_insert_eq _ _ _)) as (Hwf' & Hkeep & Hs & Hq)
    end.
    split; [done |]. rewrite Hs, Hsent. simpl.
    unfold record_of at 1. simpl. rewrite !lookup_insert_eq. simpl. rewrite lookup_insert_eq.
    repeat split; try done; [intros _; apply fresh_entry_None |].
    intros k. rewrite Hq. case_decide; [by subst | done].
Qed.

(** ** Any number of calls on a well-formed [Cache] *)

Lemma keeps_records_refl this w : keeps_records this w w.
Proof. split; eauto. Qed.

Lemma keeps_records_trans this w1 w2 w3 :
  keeps_records this w1 w2 → keeps_records this w2 w3 → keeps_records this w1 w3.
Proof.
  intros [Hr12 He12] [Hr23 He23]. split; [eauto |].
  intros ent e He. destruct (He12 _ _ He) as (e2 & He2 & Hk2).
  destruct (He23 _ _ He2) as (e3 & He3 & Hk3). exists e3. split; [done | congruence].
Qed.

Lemma fetch_step_refl this key w : fetch_step this key w w.
Proof. by apply fetch_step_quiet. Qed.

Lemma fetch_step_trans this key w1 w2 w3 :
  fetch_step this key w1 w2 → fetch_step this key w2 w3 → fetch_step this key w1 w3.
Proof.
  unfold fetch_step. intros [Hf12 Hm12] [Hf23 Hm23]. rewrite Hf23, Hf12.
  destruct (requested_of w1 this key), (requested_of w2 this key),
    (requested_of w3 this key); simpl in *; split; auto with lia;
    try (by specialize (Hm12 eq_refl)); try (by specialize (Hm23 eq_refl)).
Qed.

Lemma run_calls_steps w this calls :
  wf_cache w this →
  ∃ w', run_calls this calls w = Ok tt w'
        ∧ wf_cache w' this
        ∧ keeps_records this w w'
        ∧ ∀ key, fetch_step this key w w'
                 ∧ (call_get key ∈ calls → requested_of w' this key = true)
                 ∧ (call_get key ∉ calls →
                      requested_of w' this key = requested_of w this key).
Proof.
  revert w. induction calls as [| call calls IH]; intros w Hwf.
  - exists w. split; [done |]. split; [done |].
    split; [apply keeps_records_refl |]. intros key.
    split; [apply fetch_step_refl |]. split; [| done].
    intros Hin. by apply elem_of_nil in Hin.
  - destruct (run_call_step w this call Hwf) as (w1 & Hrun1 & Hwf1 & Hkeep1 & Hacc1).
    destruct (IH w1 Hwf1) as (w2 & Hrun2 & Hwf2 & Hkeep2 & Hacc2).
    exists w2. split; [by simpl; unfold bind; rewrite Hrun1 |].
    split; [done |]. split; [by eapply keeps_records_trans |].
    intros key. destruct (Hacc1 key) as (Hf1 & Hget1 & Hoth1).
    destruct (Hacc2 key) as (Hf2 & Hget2 & Hoth2).
    split; [by eapply fetch_step_trans |]. split.
    + intros [Heq | Hin]%elem_of_cons.
      * apply Hf2. by apply Hget1.
      * by apply Hget2.
    + intros Hnin%not_elem_of_cons. destruct Hnin as [Hne Hnin].
      rewrite (Hoth2 Hnin). apply Hoth1. by apply not_eq_sym.
Qed.

(** ** The registry *)

Lemma open_registered w name cache :
  CACHES w !! name = Some cache → open name w = Ok cache w.
Proof. intros H. unfold open, bind, CACHES_get. by rewrite H. Qed.

Lemma open_unregistered w name :
  CACHES w !! name = None →
  open name w =
    let conn := fresh (dom (ports w)) in
    let this := fresh (dom (caches w)) in
    Ok this (mkWorld (entries w)
               (<[this := mkCache ∅ name conn]> (caches w))
               (<[conn := mkPort ("cache:" +:+ name) [] [this] [this]]> (ports w))
               (<[name := this]> (CACHES w))
               (console w)).
Proof.
  intros H. unfold open, bind, CACHES_get. rewrite H.
  unfold connect, constructor, bind, new_cache, onDisconnect_addListener,
    onMessage_addListener, write_port, CACHES_set, with_ports, with_caches,
    with_CACHES, ret.
  simpl. rewrite lookup_insert_eq. simpl. rewrite lookup_insert_eq. simpl.
  by rewrite !insert_insert_eq.
Qed.

(** No method and no listener of a [Cache] touches the registry, another
    [Cache] object or the existence of a port; and none returns normally
    unless its [this] is a live object. *)
Lemma run_call_frame w w' this call :
  run_call this call w = Ok tt w' →
  CACHES w' = CACHES w
  ∧ is_Some (caches w !! this)
  ∧ (∀ that, that ≠ this → caches w' !! that = caches w !! that)
  ∧ (∀ conn, is_Some (ports w !! conn) → is_Some (ports w' !! conn)).
Proof.
  destruct call; simpl;
    unfold get, set, _cached, _send, onMessage_listener, onDisconnect_listener,
      postMessage, bind, read_cache, read_entry, write_entry, write_cache, write_port,
      new_entry, console_warn, console_log, ret, with_entries, with_caches, with_ports,
      with_console;
    intros Hrun; repeat (case_match; simplify_eq /=); simplify_eq /=;
    (split; [done |]); (split; [by eexists |]);
    (split; [intros that Hthat; by rewrite ?lookup_insert_ne by done |]);
    intros conn Hconn; try done;
    match goal with
    | |- is_Some (<[?i := _]> _ !! ?j) =>
        apply lookup_insert_is_Some; destruct (decide (i = j)); auto
    end.
Qed.

Lemma run_event_registry w w' (ev : Event) name cache :
  run_event ev w = Ok tt w' →
  CACHES w !! name = Some cache →
  CACHES w' !! name = Some cache.
Proof.
  destruct ev as [name' | this call]; simpl.
  - unfold bind. destruct (CACHES w !! name') as [cache' |] eqn:Hreg.
    + rewrite (open_registered _ _ _ Hreg). by intros [= <-].
    + rewrite (open_unregistered _ _ Hreg). simpl. intros [= <-] Hname. simpl.
      rewrite lookup_insert_ne; [done | congruence].
  - intros Hrun Hname. by destruct (run_call_frame _ _ _ _ Hrun) as [-> _].
Qed.

Lemma run_events_registry (evs : list Event) w w' name cache :
  run_events evs w = Ok tt w' →
  CACHES w !! name = Some cache →
  CACHES w' !! name = Some cache.
Proof.
  revert w. induction evs as [| ev evs IH]; intros w; simpl.
  - by intros [= <-].
  - unfold bind. destruct (run_event ev w) as [[] w1 |] eqn:Hev; [| done].
    intros Hrun Hname. eauto using run_event_registry.
Qed.

(** ** Well-formedness is what [open] gives and can be checked *)

Lemma wf_cacheb_correct w this : wf_cacheb w this = true → wf_cache w this.
Proof.
  unfold wf_cacheb, wf_cache.
  destruct (caches w !! this) as [c |]; [| done].
  intros [Hport Hall]%andb_prop. exists c. split; [done |].
  split; [by apply bool_decide_eq_true_1 in Hport |].
  intros k ent Hk. rewrite forallb_forall in Hall.
  specialize (Hall (k, ent)). simpl in Hall.
  assert (Hin : In (k, ent) (map_to_list (_local_cache c)))
    by (by apply list_elem_of_In, elem_of_map_to_list).
  apply Hall, bool_decide_eq_true_1 in Hin.
  destruct (entries w !! ent) as [e |]; [| done]. exists e.
  split; [done | by injection Hin].
Qed.

Lemma open_new_wf w name this w' :
  CACHES w !! name = None →
  open name w = Ok this w' →
  wf_cache w' this ∧ sent w' this = [] ∧ ∀ key, record_of w' this key = None.
Proof.
  intros Hreg. rewrite (open_unregistered _ _ Hreg). simpl. intros [= <- <-].
  split; [| split].
  - eexists. split; [simpl; apply lookup_insert_eq |]. simpl.
    split; [rewrite lookup_insert_eq; by eexists |].
    intros k ent Hk. by rewrite lookup_empty in Hk.
  - unfold sent. simpl. rewrite lookup_insert_eq. simpl. by rewrite lookup_insert_eq.
  - intros key. unfold record_of. simpl. by rewrite lookup_insert_eq.
Qed.

(** ** Every reachable environment is well formed *)

Lemma wf_cache_frame w w' this :
  wf_cache w this →
  caches w' !! this = caches w !! this →
  (∀ ent e, entries w !! ent = Some e →
     ∃ e', entries w' !! ent = Some e' ∧ CacheEntry.key e' = CacheEntry.key e) →
  (∀ conn, is_Some (ports w !! conn) → is_Some (ports w' !! conn)) →
  wf_cache w' this.
Proof.
  intros (c & Hc & Hp & Hrec) HC HE HP. exists c.
  split; [by rewrite HC |]. split; [by apply HP |].
  intros k ent Hk. destruct (Hrec _ _ Hk) as (e & He & Hkey).
  destruct (HE _ _ He) as (e' & He' & Hkey'). exists e'. split; [done | congruence].
Qed.

Lemma run_call_all_wf w w' this call :
  all_wf w → run_call this call w = Ok tt w' → all_wf w'.
Proof.
  intros Hall Hrun that Hthat.
  destruct (run_call_frame _ _ _ _ Hrun) as (_ & Hlive & Hothers & Hports).
  destruct (run_call_step w this call (Hall _ Hlive)) as (w1 & Hrun1 & Hwf1 & [_ Hent] & _).
  rewrite Hrun in Hrun1. injection Hrun1 as <-.
  destruct (decide (that = this)) as [-> | Hne]; [done |].
  rewrite (Hothers _ Hne) in Hthat.
  apply (wf_cache_frame w); auto.
Qed.

Lemma open_all_wf w w' name cache :
  all_wf w → open name w = Ok cache w' → all_wf w'.
Proof.
  intros Hall Hopen. destruct (CACHES w !! name) as [cache' |] eqn:Hreg.
  - rewrite (open_registered _ _ _ Hreg) in Hopen. by injection Hopen as _ <-.
  - destruct (open_new_wf _ _ _ _ Hreg Hopen) as [Hnew _].
    rewrite (open_unregistered _ _ Hreg) in Hopen. simpl in Hopen.
    injection Hopen as <- <-. intros that Hthat.
    destruct (decide (that = fresh (dom (caches w)))) as [-> | Hne]; [done |].
    simpl in Hthat. rewrite lookup_insert_ne in Hthat by done.
    apply (wf_cache_frame w); [by apply Hall | | by eauto |].
    + simpl. by rewrite lookup_insert_ne.
    + intros conn Hconn. simpl. apply lookup_insert_is_Some.
      destruct (decide (fresh (dom (ports w)) = conn)); auto.
Qed.




(** Right after [open], a message arriving on the new port is handled by
    the listener of the new object and by nothing else. *)
Lemma open_subscribes w name this w' m :
  CACHES w !! name = None →
  open name w = Ok this w' →
  ∃ c, caches w' !! this = Some c
       ∧ port_receive (_service c) m w' = onMessage_listener this m w'.
Proof.
  intros Hreg. rewrite (open_unregistered _ _ Hreg). simpl. intros [= <- <-].
  eexists. split; [simpl; apply lookup_insert_eq |].
  unfold port_receive. simpl. rewrite lookup_insert_eq. simpl. unfold bind.
  by destruct (onMessage_listener _ _ _) as [[] ? |].
Qed.

(** ** The specification's properties *)

(** C1. Once a record exists for a key, no later [get], [set], inbound
    message or disconnect removes the key from [_local_cache] or binds it
    to another object: after any sequence of such steps the key still
    names the same object, which is still live and still carries the same
    [key] field; only its other fields may have changed. *)
Theorem records_are_never_removed w this key ent e calls :
  wf_cache w this →
  record_of w this key = Some ent →
  entries w !! ent = Some e →
  ∃ w' e',
    run_calls this calls w = Ok tt w'
    ∧ record_of w' this key = Some ent
    ∧ entries w' !! ent = Some e'
    ∧ CacheEntry.key e' = CacheEntry.key e.
Proof.
  intros Hwf Hk He.
  destruct (run_calls_steps w this calls Hwf) as (w' & Hrun & _ & [Hrec Hent] & _).
  destruct (Hent _ _ He) as (e' & He' & Hkey).
  exists w', e'. auto.
Qed.

(** C2. Starting where [key] has not been requested yet, take any calls
    that contain a [get(key)]: whatever comes [before] the first
    [get(key)] posts no [Fetch{key}]; that first [get(key)] posts exactly
    [Fetch{key}] and sets [requested]; whatever comes [after] it (further
    [get(key)] calls included, and also [set] calls and inbound messages)
    posts no [Fetch{key}], so one has been posted in all; and a [get(key)]
    made then changes nothing at all. *)
Theorem get_sends_exactly_one_fetch w this key (before after : list Call) :
  wf_cache w this →
  requested_of w this key = false →
  call_get key ∉ before →
  ∃ w1 ent w2 e2 w3,
    run_calls this before w = Ok tt w1
    ∧ fetches_for key (sent w1 this) = fetches_for key (sent w this)
    ∧ get this key w1 = Ok ent w2
    ∧ sent w2 this = sent w1 this ++ [Fetch key]
    ∧ entries w2 !! ent = Some e2 ∧ CacheEntry.requested e2 = true
    ∧ run_calls this after w2 = Ok tt w3
    ∧ fetches_for key (sent w3 this) = fetches_for key (sent w2 this)
    ∧ fetches_for key (sent w3 this) = fetches_for key (sent w this) + 1
    ∧ get this key w3 = Ok ent w3.
Proof.
  intros Hwf Hreq Hnin.
  destruct (run_calls_steps w this before Hwf) as (w1 & Hrun1 & Hwf1 & _ & Hacc1).
  destruct (Hacc1 key) as ([Hf1 _] & _ & Hsame1). specialize (Hsame1 Hnin).
  rewrite Hsame1, Hreq in Hf1. simpl in Hf1. rewrite Nat.add_0_r in Hf1.
  destruct (get_spec w1 this key Hwf1)
    as (ent & w2 & Hget & Hwf2 & Hrec2 & _ & _ & He2 & Hs2 & _).
  rewrite Hsame1, Hreq in Hs2.
  destruct (run_calls_steps w2 this after Hwf2) as (w3 & Hrun3 & Hwf3 & [Hkeep3 _] & Hacc3).
  destruct (Hacc3 key) as ([Hf3 Hmono3] & _ & _).
  assert (Hreq2 : requested_of w2 this key = true)
    by (by rewrite (requested_of_eq _ _ _ _ _ Hrec2 He2)).
  specialize (Hmono3 Hreq2). rewrite Hreq2 in Hf3. simpl in Hf3.
  rewrite Nat.add_0_r in Hf3.
  destruct (get_spec w3 this key Hwf3)
    as (ent' & w4 & Hget' & _ & _ & Hsame' & _ & _ & _ & Hstill).
  rewrite <- (Hsame' ent (Hkeep3 _ _ Hrec2)), (Hstill Hmono3) in Hget'.
  eexists w1, ent, w2, _, w3.
  repeat split; try done.
  rewrite Hf3, Hs2, fetches_for_app, is_fetch_for_Fetch, bool_decide_eq_true_2 by done.
  by rewrite Hf1.
Qed.

(** C3. [open(name)] always returns a live [Cache] registered under
    [name].  If the name was free, the object is new and registering it is
    the only change to [CACHES]; if it was taken, nothing changes.
    Whatever happens afterwards ([open] of any name, calls and messages on
    any object), another [open(name)] returns the same object and leaves
    the environment exactly as it found it. *)
Theorem open_is_idempotent w name :
  ∃ cache w1,
    open name w = Ok cache w1
    ∧ CACHES w1 !! name = Some cache
    ∧ (CACHES w !! name = None →
         caches w !! cache = None
         ∧ is_Some (caches w1 !! cache)
         ∧ CACHES w1 = <[name := cache]> (CACHES w))
    ∧ (is_Some (CACHES w !! name) → w1 = w)
    ∧ ∀ (evs : list Event) w2,
        run_events evs w1 = Ok tt w2 → open name w2 = Ok cache w2.
Proof.
  assert (Hlater : ∀ cache w1, CACHES w1 !! name = Some cache →
            ∀ (evs : list Event) w2, run_events evs w1 = Ok tt w2 →
              open name w2 = Ok cache w2).
  { intros cache w1 Hreg evs w2 Hrun.
    by rewrite (open_registered _ _ _ (run_events_registry _ _ _ _ _ Hrun Hreg)). }
  destruct (CACHES w !! name) as [cache |] eqn:Hreg.
  - exists cache, w. rewrite (open_registered _ _ _ Hreg).
    repeat split; try done. by apply Hlater.
  - rewrite (open_unregistered _ _ Hreg). simpl. eexists _, _.
    split; [done |]. simpl.
    assert (Hnew : <[name := fresh (dom (caches w))]> (CACHES w) !! name
                   = Some (fresh (dom (caches w)))) by apply lookup_insert_eq.
    split; [done |].
    split; [intros _; split; [apply not_elem_of_dom, is_fresh |];
            split; [rewrite lookup_insert_eq; by eexists | done] |].
    split; [by intros [? ?] |].
    by apply Hlater.
Qed.

Lemma value_of_eq w this key ent e :
  record_of w this key = Some ent →
  entries w !! ent = Some e →
  value_of w this key = CacheEntry.value e.
Proof. intros Hk He. unfold value_of, entry_of. by rewrite Hk; simpl; rewrite He. Qed.

(** C4. [set(key, v)] returns the record of [key], the existing object if
    there was one and a new object otherwise; on return the record holds
    [v], and exactly [Entry{key, v}] has been posted.  A [get(key)] made
    right away returns the same object, still holding [v]. *)
Theorem set_is_visible_at_once w this key (v : Content) :
  wf_cache w this →
  ∃ ent w1 w2,
    set this key v w = Ok ent w1
    ∧ (∀ ent0, record_of w this key = Some ent0 → ent0 = ent)
    ∧ (record_of w this key = None → entries w !! ent = None)
    ∧ record_of w1 this key = Some ent
    ∧ entries w1 !! ent = Some (CacheEntry.mk key (Some v) (requested_of w this key))
    ∧ sent w1 this = sent w this ++ [Entry key v]
    ∧ get this key w1 = Ok ent w2
    ∧ entries w2 !! ent = Some (CacheEntry.mk key (Some v) true).
Proof.
  intros Hwf.
  destruct (set_spec w this key v Hwf)
    as (ent & w1 & Hset & Hwf1 & Hrec1 & Hold & Hnew & He1 & Hs1 & _).
  destruct (get_spec w1 this key Hwf1)
    as (ent' & w2 & Hget & _ & _ & Hsame & _ & He2 & _).
  rewrite <- (Hsame _ Hrec1) in Hget, He2.
  rewrite (value_of_eq _ _ _ _ _ Hrec1 He1) in He2.
  by exists ent, w1, w2.
Qed.

(** C5. An inbound message of type ['entry'] whose key has a record
    changes one thing in the whole environment: the [value] field of that
    record, which becomes the message's value.  The record stays the same
    object under the same key (the one a [get(key)] that led to this world
    returned), and its [key] and [requested] fields are as before. *)
Theorem inbound_entry_overwrites_value w this m ent :
  wf_cache w this →
  Message.type m = "entry" →
  record_of w this (Message.key m) = Some ent →
  ∃ e,
    entries w !! ent = Some e
    ∧ onMessage_listener this m w =
        Ok tt (mkWorld
                 (<[ent := CacheEntry.mk (CacheEntry.key e) (Message.value m)
                             (CacheEntry.requested e)]> (entries w))
                 (caches w) (ports w) (CACHES w) (console w))
    ∧ ∀ w0 ent0, wf_cache w0 this → get this (Message.key m) w0 = Ok ent0 w → ent0 = ent.
Proof.
  intros Hwf Ht Hk. pose proof Hwf as (c & Hc & _ & Hrec).
  rewrite (record_of_eq _ _ _ _ Hc) in Hk.
  destruct (Hrec _ _ Hk) as (e & He & _). exists e. split; [done |].
  split; [by rewrite (listener_entry_hit _ _ _ _ _ _ Ht Hc Hk He) |].
  intros w0 ent0 Hwf0 Hget.
  destruct (get_spec w0 this (Message.key m) Hwf0) as (ent1 & w1 & Hget1 & _ & Hrec1 & _).
  rewrite Hget in Hget1. injection Hget1 as -> ->.
  rewrite (record_of_eq _ _ _ _ Hc) in Hrec1. congruence.
Qed.

(** C6. An inbound message of type ['expiring'] whose key has a record
    changes one thing in the whole environment: the [value] field of that
    record, which becomes [undefined].  The record stays in the map under
    its key, [requested] is as before, and a later [get(key)] returns the
    same object, without another fetch if one had been made. *)
Theorem inbound_expiring_clears_value w this m ent :
  wf_cache w this →
  Message.type m = "expiring" →
  record_of w this (Message.key m) = Some ent →
  ∃ e w' w'',
    entries w !! ent = Some e
    ∧ onMessage_listener this m w = Ok tt w'
    ∧ w' = mkWorld
             (<[ent := CacheEntry.mk (CacheEntry.key e) None (CacheEntry.requested e)]>
                (entries w))
             (caches w) (ports w) (CACHES w) (console w)
    ∧ record_of w' this (Message.key m) = Some ent
    ∧ requested_of w' this (Message.key m) = CacheEntry.requested e
    ∧ get this (Message.key m) w' = Ok ent w''
    ∧ (CacheEntry.requested e = true → w'' = w').
Proof.
  intros Hwf Ht Hk. pose proof Hwf as (c & Hc & _ & Hrec).
  pose proof Hk as Hk'. rewrite (record_of_eq _ _ _ _ Hc) in Hk'.
  destruct (Hrec _ _ Hk') as (e & He & _).
  pose proof (listener_expiring_hit _ _ _ _ _ _ Ht Hc Hk' He) as Hrun.
  destruct (run_call_step w this (deliver m) Hwf) as (w' & Hrun' & Hwf' & [Hkeep _] & _).
  simpl in Hrun'. rewrite Hrun in Hrun'. injection Hrun' as Hw'.
  destruct (get_spec w' this (Message.key m) Hwf')
    as (ent' & w'' & Hget & _ & _ & Hsame & _ & _ & _ & Hstill).
  rewrite <- (Hsame _ (Hkeep _ _ Hk)) in Hget.
  assert (He' : entries w' !! ent = Some (set_value None e))
    by (rewrite <- Hw'; apply lookup_insert_eq).
  pose proof (requested_of_eq _ _ _ _ _ (Hkeep _ _ Hk) He') as Hreq.
  exists e, w', w''. rewrite Hrun, Hw'.
  repeat split; try done; [by apply Hkeep |].
  intros Hr. apply Hstill. by rewrite Hreq.
Qed.

(** C7. An inbound message of type ['entry'] whose key has no record is
    dropped: the listener returns normally and the environment is exactly
    what it was (no record made, none changed). *)
Theorem inbound_entry_for_unknown_key_is_dropped w this m :
  is_Some (caches w !! this) →
  Message.type m = "entry" →
  record_of w this (Message.key m) = None →
  onMessage_listener this m w = Ok tt w.
Proof.
  intros [c Hc] Ht Hk. rewrite (record_of_eq _ _ _ _ Hc) in Hk.
  by apply (listener_entry_miss _ _ c).
Qed.

(** C8. An inbound message whose type is neither ['entry'] nor
    ['expiring'] (a ['fetch'], or any other tag) makes the listener return
    normally after one [console.warn]; the object stores, the ports and
    the registry are exactly what they were. *)
Theorem inbound_unknown_message_is_only_logged w this m :
  is_Some (caches w !! this) →
  Message.type m ≠ "entry" →
  Message.type m ≠ "expiring" →
  ∃ line,
    onMessage_listener this m w =
      Ok tt (mkWorld (entries w) (caches w) (ports w) (CACHES w)
               (console w ++ [console_warn_line line])).
Proof.
  intros [c Hc] Ht Ht'. eexists. by apply (listener_other _ _ c).
Qed.

(** C9. [get(key)] returns a record without waiting for anything.  Its
    first step, [_cached(key)], hands back the existing record or, if
    there is none, makes a new object [{key, value: undefined, requested:
    false}] and files it under [key]; the fetch logic then runs on that
    object.  A second [get(key)] right after returns the same object and
    changes nothing. *)
Theorem get_returns_a_record_at_once w this key :
  wf_cache w this →
  ∃ ent w0 w1,
    _cached this key w = Ok ent w0
    ∧ (∀ ent0, record_of w this key = Some ent0 → ent0 = ent ∧ w0 = w)
    ∧ (record_of w this key = None →
         entries w !! ent = None
         ∧ entries w0 !! ent = Some (CacheEntry.mk key None false)
         ∧ record_of w0 this key = Some ent
         ∧ entries w1 !! ent = Some (CacheEntry.mk key None true)
         ∧ sent w1 this = sent w this ++ [Fetch key])
    ∧ get this key w = Ok ent w1
    ∧ record_of w1 this key = Some ent
    ∧ get this key w1 = Ok ent w1.
Proof.
  intros Hwf. pose proof Hwf as (c & Hc & _ & Hrec).
  destruct (get_spec w this key Hwf)
    as (ent & w1 & Hget & Hwf1 & Hrec1 & Hold & Hnew & He1 & Hs1 & _).
  destruct (get_spec w1 this key Hwf1)
    as (ent' & w2 & Hget' & _ & _ & Hsame & _ & _ & _ & Hstill).
  rewrite <- (Hsame _ Hrec1), Hstill in Hget'
    by (by rewrite (requested_of_eq _ _ _ _ _ Hrec1 He1)).
  assert (Hcached : ∃ w0, _cached this key w = Ok ent w0
            ∧ (∀ ent0, record_of w this key = Some ent0 → w0 = w)
            ∧ (record_of w this key = None →
                 entries w0 !! ent = Some (CacheEntry.mk key None false)
                 ∧ record_of w0 this key = Some ent)).
  { rewrite (record_of_eq _ _ _ key Hc) in *.
    destruct (_local_cache c !! key) as [ent0 |] eqn:Hk.
    - rewrite <- (Hold ent0 eq_refl). exists w.
      by rewrite (_cached_hit _ _ _ _ _ Hc Hk).
    - unfold get, bind in Hget. rewrite (_cached_miss _ _ _ _ Hc Hk) in Hget |- *.
      simpl in *. unfold read_entry in Hget. simpl in Hget.
      rewrite lookup_insert_eq in Hget. simpl in Hget.
      destruct (_send _ _ _) as [[] w_ |]; [| done]. simpl in Hget.
      unfold write_entry in Hget. destruct (entries w_ !! _); [| done].
      injection Hget as <- _. eexists. split; [done |]. split; [done |].
      intros _. simpl. split; [apply lookup_insert_eq |].
      unfold record_of. simpl. rewrite lookup_insert_eq. simpl.
      apply lookup_insert_eq. }
  destruct Hcached as (w0 & Hcached & Hhit & Hmiss).
  exists ent, w0, w1. split; [done |].
  split; [intros ent0 Hk; split; [by apply Hold | by eapply Hhit] |].
  split; [| done].
  intros Hk. destruct (Hmiss Hk) as [He0 Hrec0].
  rewrite (requested_of_None _ _ _ Hk) in Hs1.
  unfold value_of, entry_of in He1. rewrite Hk in He1. auto.
Qed.

(** C10. [set(key, v)] posts exactly [Entry{key, v}], so no [Fetch] for
    any key, and leaves the [requested] flag of every key as it was (unset
    where there was no record).  After a [set] on a key without a record,
    the record holds [v] with [requested] unset, and the next [get(key)]
    posts [Fetch{key}] although the value is there. *)
Theorem set_never_fetches w this key (v : Content) :
  wf_cache w this →
  ∃ ent w1,
    set this key v w = Ok ent w1
    ∧ sent w1 this = sent w this ++ [Entry key v]
    ∧ (∀ k, fetches_for k (sent w1 this) = fetches_for k (sent w this))
    ∧ (∀ k, requested_of w1 this k = requested_of w this k)
    ∧ (record_of w this key = None →
         ∃ w2, entries w1 !! ent = Some (CacheEntry.mk key (Some v) false)
               ∧ get this key w1 = Ok ent w2
               ∧ sent w2 this = sent w1 this ++ [Fetch key]
               ∧ entries w2 !! ent = Some (CacheEntry.mk key (Some v) true)).
Proof.
  intros Hwf.
  destruct (set_spec w this key v Hwf)
    as (ent & w1 & Hset & Hwf1 & Hrec1 & _ & _ & He1 & Hs1 & Hreq1).
  exists ent, w1. split; [done |]. split; [done |].
  split; [intros k; by rewrite Hs1, fetches_for_app, is_fetch_for_Entry, Nat.add_0_r |].
  split; [done |]. intros Hk.
  destruct (get_spec w1 this key Hwf1)
    as (ent' & w2 & Hget & _ & _ & Hsame & _ & He2 & Hs2 & _).
  rewrite <- (Hsame _ Hrec1) in Hget, He2.
  rewrite (value_of_eq _ _ _ _ _ Hrec1 He1) in He2.
  rewrite Hreq1, (requested_of_None _ _ _ Hk) in Hs2.
  rewrite (requested_of_None _ _ _ Hk) in He1.
  by exists w2.
Qed.

(** ** Further properties of the listeners *)

(** X1. An inbound message of type ['expiring'] whose key has no record is
    dropped like an ['entry'] for an unknown key: the listener returns
    normally and the environment is exactly what it was. *)
Theorem inbound_expiring_for_unknown_key_is_dropped w this m :
  is_Some (caches w !! this) →
  Message.type m = "expiring" →
  record_of w this (Message.key m) = None →
  onMessage_listener this m w = Ok tt w.
Proof.
  intros [c Hc] Ht Hk. rewrite (record_of_eq _ _ _ _ Hc) in Hk.
  by apply (listener_expiring_miss _ _ c).
Qed.

(** What a listener that returns has left alone. *)
Lemma listener_frame w w' this call :
  is_listener call = true →
  run_call this call w = Ok tt w' →
  caches w' = caches w ∧ ports w' = ports w ∧ CACHES w' = CACHES w
  ∧ dom (entries w') = dom (entries w).
Proof.
  destruct call; try discriminate; intros _; simpl;
    unfold onMessage_listener, onDisconnect_listener, bind, read_cache, write_entry,
      console_warn, console_log, ret, with_entries, with_console;
    intros Hrun; repeat (case_match; simplify_eq /=); simplify_eq /=;
    repeat split; try done;
    apply dom_insert_lookup_L; by eexists.
Qed.

(** X2. Neither listener ever answers or makes a record: handling any
    inbound message (of whatever type, known key or not) and handling a
    disconnect return normally, post nothing, leave [_local_cache] of every
    [Cache], every port and the registry as they were, create and delete
    no entry object, and flip no [requested] flag. *)
Theorem listeners_only_assign_values w this call :
  wf_cache w this →
  is_listener call = true →
  ∃ w', run_call this call w = Ok tt w'
        ∧ caches w' = caches w
        ∧ ports w' = ports w
        ∧ CACHES w' = CACHES w
        ∧ dom (entries w') = dom (entries w)
        ∧ sent w' this = sent w this
        ∧ ∀ k, record_of w' this k = record_of w this k
               ∧ requested_of w' this k = requested_of w this k.
Proof.
  intros Hwf Hl.
  destruct (run_call_step w this call Hwf) as (w' & Hrun & _ & _ & Hacc).
  destruct (listener_frame _ _ _ _ Hl Hrun) as (HC & HP & HR & HE).
  exists w'. repeat split; try done.
  - unfold sent. by rewrite HC, HP.
  - unfold record_of. by rewrite HC.
  - destruct (Hacc k) as (_ & _ & Hsame). apply Hsame.
    intros ->. discriminate Hl.
Qed.

(** X3. [requested] is a latch: once it is set for a key, no sequence of
    [get], [set], inbound messages (['expiring'] included) and disconnects
    unsets it, and no [Fetch] for that key is posted ever again. *)
Theorem requested_is_a_latch w this key calls :
  wf_cache w this →
  requested_of w this key = true →
  ∃ w', run_calls this calls w = Ok tt w'
        ∧ requested_of w' this key = true
        ∧ fetches_for key (sent w' this) = fetches_for key (sent w this).
Proof.
  intros Hwf Hreq.
  destruct (run_calls_steps w this calls Hwf) as (w' & Hrun & _ & _ & Hacc).
  destruct (Hacc key) as ([Hf Hmono] & _). specialize (Hmono Hreq).
  exists w'. split; [done |]. split; [done |].
  rewrite Hf, Hreq. simpl. lia.
Qed.

(** ** What is posted *)

Lemma run_call_posts w this call :
  wf_cache w this →
  ∃ w' news,
    run_call this call w = Ok tt w'
    ∧ wf_cache w' this
    ∧ sent w' this = sent w this ++ news
    ∧ entries_posted news = sets_of [call]
    ∧ Forall (asked_by [call]) news.
Proof.
  intros Hwf. destruct call as [key | key v | m |].
  - destruct (get_spec w this key Hwf) as (ent & w' & Hget & Hwf' & _ & _ & _ & _ & Hs & _).
    eexists w', _. simpl. unfold bind. rewrite Hget.
    split; [done |]. split; [done |]. split; [exact Hs |].
    destruct (requested_of w this key); [by split |].
    split; [done |]. apply Forall_singleton. left. exists key.
    split; [done | apply list_elem_of_here].
  - destruct (set_spec w this key v Hwf) as (ent & w' & Hset & Hwf' & _ & _ & _ & _ & Hs & _).
    eexists w', _. simpl. unfold bind. rewrite Hset.
    split; [done |]. split; [done |]. split; [exact Hs |].
    split; [done |]. apply Forall_singleton. right. exists key, v.
    split; [done | apply list_elem_of_here].
  - destruct (run_call_step w this (deliver m) Hwf) as (w' & Hrun & Hwf' & _).
    destruct (listener_frame w w' this (deliver m) eq_refl Hrun) as (HC & HP & _).
    exists w', []. rewrite app_nil_r. repeat split; try done.
    unfold sent. by rewrite HC, HP.
  - destruct (run_call_step w this disconnect Hwf) as (w' & Hrun & Hwf' & _).
    destruct (listener_frame w w' this disconnect eq_refl Hrun) as (HC & HP & _).
    exists w', []. rewrite app_nil_r. repeat split; try done.
    unfold sent. by rewrite HC, HP.
Qed.

Lemma asked_by_cons_l call calls m : asked_by [call] m → asked_by (call :: calls) m.
Proof.
  intros [(k & -> & Hin) | (k & v & -> & Hin)]; apply list_elem_of_singleton in Hin;
    subst call; [left; exists k | right; exists k, v]; (split; [done | apply list_elem_of_here]).
Qed.

Lemma asked_by_cons_r call calls m : asked_by calls m → asked_by (call :: calls) m.
Proof.
  intros [(k & -> & Hin) | (k & v & -> & Hin)];
    [left; exists k | right; exists k, v]; (split; [done | by apply list_elem_of_further]).
Qed.

Lemma run_calls_posts w this calls :
  wf_cache w this →
  ∃ w' news,
    run_calls this calls w = Ok tt w'
    ∧ wf_cache w' this
    ∧ sent w' this = sent w this ++ news
    ∧ entries_posted news = sets_of calls
    ∧ Forall (asked_by calls) news.
Proof.
  revert w. induction calls as [| call calls IH]; intros w Hwf.
  - exists w, []. rewrite app_nil_r. by repeat split.
  - destruct (run_call_posts w this call Hwf) as (w1 & news1 & Hrun1 & Hwf1 & Hs1 & He1 & Ha1).
    destruct (IH w1 Hwf1) as (w2 & news2 & Hrun2 & Hwf2 & Hs2 & He2 & Ha2).
    exists w2, (news1 ++ news2). simpl. unfold bind. rewrite Hrun1.
    split; [done |]. split; [done |].
    split; [by rewrite Hs2, Hs1, app_assoc |]. split.
    + unfold entries_posted in *. rewrite List.filter_app, He1, He2.
      unfold sets_of. simpl. by destruct call.
    + apply Forall_app. split.
      * eapply Forall_impl; [exact Ha1 |]. intros m. apply asked_by_cons_l.
      * eapply Forall_impl; [exact Ha2 |]. intros m. apply asked_by_cons_r.
Qed.

(** X4. The client posts only what its callers asked for, and only by
    appending: after any sequence of calls the port holds what it held
    before, followed by messages each of which is the [Fetch{key}] of a
    [get(key)] among the calls or the [Entry{key, value}] of a
    [set(key, value)] among them.  Nothing is posted by a listener, and
    nothing posted is taken back or reordered. *)
Theorem only_asked_messages_are_posted w this calls :
  wf_cache w this →
  ∃ w' news,
    run_calls this calls w = Ok tt w'
    ∧ sent w' this = sent w this ++ news
    ∧ Forall (asked_by calls) news.
Proof.
  intros Hwf.
  destruct (run_calls_posts w this calls Hwf) as (w' & news & Hrun & _ & Hs & _ & Ha).
  by exists w', news.
Qed.

(** X5. Every [set] is forwarded, once, in call order: the ['entry']
    messages posted during any sequence of calls are exactly the
    [Entry{key, value}] of its [set(key, value)] calls, in the order of the
    calls.  Writes are not dropped or merged, also not when the value is
    the one already there. *)
Theorem writes_are_forwarded_in_order w this calls :
  wf_cache w this →
  ∃ w',
    run_calls this calls w = Ok tt w'
    ∧ entries_posted (sent w' this) = entries_posted (sent w this) ++ sets_of calls.
Proof.
  intros Hwf.
  destruct (run_calls_posts w this calls Hwf) as (w' & news & Hrun & _ & Hs & He & _).
  exists w'. split; [done |].
  unfold entries_posted in *. by rewrite Hs, List.filter_app, He.
Qed.

(** ** The three shapes of a step *)

Lemma asks_for_call_key key call : asks_for key call → call_key call = Some key.
Proof. by intros [-> | [v ->]]. Qed.

(** A call on a well-formed [Cache] returns, and what it did to the entry
    store and to [_local_cache] is one of three things: nothing; one field
    assignment on the record of the call's key; or a new record filed under
    the key a [get] or [set] asked for.  Besides, it posted at most one
    message, on its own port. *)
Lemma run_call_shape w this call :
  wf_cache w this →
  ∃ w' c p,
    run_call this call w = Ok tt w'
    ∧ wf_cache w' this
    ∧ caches w !! this = Some c
    ∧ ports w !! _service c = Some p
    ∧ CACHES w' = CACHES w
    ∧ (ports w' = ports w ∨ ∃ m, ports w' = <[_service c := port_post m p]> (ports w))
    ∧ ((entries w' = entries w ∧ caches w' = caches w
        ∧ ∀ k, asks_for k call → is_Some (_local_cache c !! k))
       ∨ (∃ key0 ent e e',
            call_key call = Some key0
            ∧ _local_cache c !! key0 = Some ent
            ∧ entries w !! ent = Some e
            ∧ CacheEntry.key e' = CacheEntry.key e
            ∧ (is_listener call = true → CacheEntry.requested e' = CacheEntry.requested e)
            ∧ (call = call_get key0 → CacheEntry.value e' = CacheEntry.value e)
            ∧ entries w' = <[ent := e']> (entries w)
            ∧ caches w' = caches w)
       ∨ (∃ key0 e',
            asks_for key0 call
            ∧ _local_cache c !! key0 = None
            ∧ CacheEntry.key e' = key0
            ∧ (call = call_get key0 → CacheEntry.value e' = None)
            ∧ entries w' = <[fresh (dom (entries w)) := e']> (entries w)
            ∧ caches w' = <[this := _local_cache_set key0 (fresh (dom (entries w))) c]>
                            (caches w))).
Proof.
  intros Hwf. pose proof Hwf as (c & Hc & [p Hp] & Hrec).
  destruct (run_call_step w this call Hwf) as (w' & Hrun & Hwf' & _).
  exists w', c, p. do 4 (split; [done |]).
  destruct call as [key | key v | m |]; simpl in Hrun; unfold bind in Hrun.
  - destruct (_local_cache c !! key) as [ent |] eqn:Hk.
    + destruct (Hrec _ _ Hk) as (e & He & Hkey).
      destruct (CacheEntry.requested e) eqn:Hr.
      * rewrite (get_hit_again _ _ _ _ _ _ Hc Hk He Hr) in Hrun. injection Hrun as <-.
        split; [done |]. split; [by left |]. left. repeat split; try done.
        intros k [[= ->] | [? [=]]]. by eexists.
      * rewrite (get_hit_first _ _ _ _ _ _ _ Hc Hp Hk He Hr) in Hrun. injection Hrun as <-.
        split; [done |]. split; [right; by eexists |]. right. left.
        exists key, ent, e, (set_requested true e). by repeat split.
    + rewrite (get_miss _ _ _ _ _ Hc Hp Hk) in Hrun. injection Hrun as <-.
      split; [done |]. split; [right; by eexists |]. right. right.
      exists key, (CacheEntry.mk key None true). repeat split; try done. by left.
  - destruct (_local_cache c !! key) as [ent |] eqn:Hk.
    + destruct (Hrec _ _ Hk) as (e & He & Hkey).
      rewrite (set_hit _ _ _ _ _ _ _ _ Hc Hp Hk He) in Hrun. injection Hrun as <-.
      split; [done |]. split; [right; by eexists |]. right. left.
      exists key, ent, e, (set_value (Some v) e). by repeat split.
    + rewrite (set_miss _ _ _ _ _ _ Hc Hp Hk) in Hrun. injection Hrun as <-.
      split; [done |]. split; [right; by eexists |]. right. right.
      exists key, (CacheEntry.mk key (Some v) false). repeat split; try done.
      right. by eexists.
  - assert (Hno : ∀ k, asks_for k (deliver m) → is_Some (_local_cache c !! k))
      by (by intros k [[=] | [? [=]]]).
    destruct (decide (Message.type m = "entry")) as [Ht | Ht];
      [| destruct (decide (Message.type m = "expiring")) as [Ht' | Ht']].
    + destruct (_local_cache c !! Message.key m) as [ent |] eqn:Hk.
      * destruct (Hrec _ _ Hk) as (e & He & Hkey).
        rewrite (listener_entry_hit _ _ _ _ _ _ Ht Hc Hk He) in Hrun. injection Hrun as <-.
        split; [done |]. split; [by left |]. right. left.
        exists (Message.key m), ent, e, (set_value (Message.value m) e). by repeat split.
      * rewrite (listener_entry_miss _ _ _ _ Ht Hc Hk) in Hrun. injection Hrun as <-.
        split; [done |]. split; [by left |]. by left.
    + destruct (_local_cache c !! Message.key m) as [ent |] eqn:Hk.
      * destruct (Hrec _ _ Hk) as (e & He & Hkey).
        rewrite (listener_expiring_hit _ _ _ _ _ _ Ht' Hc Hk He) in Hrun.
        injection Hrun as <-.
        split; [done |]. split; [by left |]. right. left.
        exists (Message.key m), ent, e, (set_value None e). by repeat split.
      * rewrite (listener_expiring_miss _ _ _ _ Ht' Hc Hk) in Hrun. injection Hrun as <-.
        split; [done |]. split; [by left |]. by left.
    + rewrite (listener_other _ _ _ _ Ht Ht' Hc) in Hrun. injection Hrun as <-.
      split; [done |]. split; [by left |]. by left.
  - unfold onDisconnect_listener, bind, read_cache, console_log in Hrun.
    rewrite Hc in Hrun. injection Hrun as <-.
    split; [done |]. split; [by left |]. left. repeat split; try done.
    by intros k [[=] | [? [=]]].
Qed.

(** ** One key at a time *)

Lemma entry_of_after_update w w' this c ent e' key0 :
  wf_cache w this →
  caches w !! this = Some c →
  _local_cache c !! key0 = Some ent →
  entries w' = <[ent := e']> (entries w) →
  caches w' = caches w →
  ∀ k, record_of w' this k = record_of w this k
       ∧ entry_of w' this k = if decide (k = key0) then Some e' else entry_of w this k.
Proof.
  intros (c0 & Hc0 & _ & Hrec) Hc Hk HE HC k.
  rewrite Hc in Hc0. injection Hc0 as <-.
  assert (Hr : record_of w' this k = record_of w this k)
    by (unfold record_of; by rewrite HC).
  split; [done |]. unfold entry_of. rewrite Hr, (record_of_eq _ _ _ _ Hc).
  case_decide as Hkk.
  - subst k. rewrite Hk. simpl. by rewrite HE, lookup_insert_eq.
  - destruct (_local_cache c !! k) as [l |] eqn:Hl; [| done]. simpl.
    rewrite HE, lookup_insert_ne; [done |].
    intros <-. destruct (Hrec _ _ Hl) as (e1 & He1 & Hk1).
    destruct (Hrec _ _ Hk) as (e2 & He2 & Hk2). congruence.
Qed.

Lemma entry_of_after_alloc w w' this c e' key0 :
  wf_cache w this →
  caches w !! this = Some c →
  _local_cache c !! key0 = None →
  entries w' = <[fresh (dom (entries w)) := e']> (entries w) →
  caches w' = <[this := _local_cache_set key0 (fresh (dom (entries w))) c]> (caches w) →
  ∀ k, record_of w' this k
       = (if decide (k = key0) then Some (fresh (dom (entries w))) else record_of w this k)
       ∧ entry_of w' this k = if decide (k = key0) then Some e' else entry_of w this k.
Proof.
  intros (c0 & Hc0 & _ & Hrec) Hc Hk HE HC k.
  rewrite Hc in Hc0. injection Hc0 as <-.
  assert (Hr : record_of w' this k
               = if decide (k = key0) then Some (fresh (dom (entries w)))
                 else record_of w this k).
  { unfold record_of. rewrite HC, lookup_insert_eq, Hc. simpl.
    case_decide as Hkk; [subst k; apply lookup_insert_eq | by apply lookup_insert_ne]. }
  split; [done |]. unfold entry_of. rewrite Hr.
  case_decide as Hkk.
  - simpl. by rewrite HE, lookup_insert_eq.
  - rewrite (record_of_eq _ _ _ _ Hc).
    destruct (_local_cache c !! k) as [l |] eqn:Hl; [| done]. simpl.
    rewrite HE, lookup_insert_ne; [done |].
    destruct (Hrec _ _ Hl) as (e1 & He1 & _).
    apply not_eq_sym. by apply (live_not_fresh _ _ e1).
Qed.

Lemma run_call_keys w this call :
  wf_cache w this →
  ∃ w', run_call this call w = Ok tt w'
        ∧ wf_cache w' this
        ∧ (∀ k, call_key call ≠ Some k →
             record_of w' this k = record_of w this k
             ∧ entry_of w' this k = entry_of w this k)
        ∧ (∀ k, is_Some (record_of w' this k)
                ↔ is_Some (record_of w this k) ∨ asks_for k call)
        ∧ (∀ key, call = call_get key → ∀ k, value_of w' this k = value_of w this k).
Proof.
  intros Hwf.
  destruct (run_call_shape w this call Hwf)
    as (w' & c & p & Hrun & Hwf' & Hc & _ & _ & _ & Hshape).
  exists w'. split; [done |]. split; [done |].
  destruct Hshape as [(HE & HC & Hasks) | [Hupd | Hnew]].
  - assert (Hr : ∀ k, record_of w' this k = record_of w this k)
      by (intros k; unfold record_of; by rewrite HC).
    assert (He : ∀ k, entry_of w' this k = entry_of w this k)
      by (intros k; unfold entry_of; by rewrite Hr, HE).
    split; [by intros k _ |]. split.
    + intros k. rewrite Hr, (record_of_eq _ _ _ _ Hc).
      split; [by left | intros [? | ?]; auto].
    + intros _ _ k. unfold value_of. by rewrite He.
  - destruct Hupd as (key0 & ent & e & e' & Hkey0 & Hk & Hent & _ & _ & Hval & HE & HC).
    pose proof (entry_of_after_update w w' this c ent e' key0 Hwf Hc Hk HE HC) as Hobs.
    split; [| split].
    + intros k Hne. destruct (Hobs k) as [Hr He]. split; [done |].
      rewrite He, decide_False; [done | congruence].
    + intros k. destruct (Hobs k) as [-> _]. split; [by left |].
      intros [Hsome | Hask]; [done |].
      apply asks_for_call_key in Hask. rewrite Hkey0 in Hask. injection Hask as <-.
      rewrite (record_of_eq _ _ _ _ Hc), Hk. by eexists.
    + intros key Hcall k. unfold value_of. destruct (Hobs k) as [_ ->].
      case_decide as Hkk; [| done]. subst k.
      assert (key = key0) as -> by (subst call; simpl in Hkey0; congruence).
      unfold entry_of. rewrite (record_of_eq _ _ _ _ Hc), Hk. simpl. rewrite Hent. simpl.
      by apply Hval.
  - destruct Hnew as (key0 & e' & Hask0 & Hk & _ & Hval & HE & HC).
    pose proof (entry_of_after_alloc w w' this c e' key0 Hwf Hc Hk HE HC) as Hobs.
    pose proof (asks_for_call_key _ _ Hask0) as Hkey0.
    split; [| split].
    + intros k Hne. destruct (Hobs k) as [Hr He].
      rewrite Hr, He, !decide_False; [done | congruence | congruence].
    + intros k. destruct (Hobs k) as [-> _]. case_decide as Hkk.
      * subst k. split; [by right | by eexists].
      * split; [by left |]. intros [Hsome | Hask]; [done |].
        apply asks_for_call_key in Hask. congruence.
    + intros key Hcall k. unfold value_of. destruct (Hobs k) as [_ ->].
      case_decide as Hkk; [| done]. subst k.
      assert (key = key0) as -> by (subst call; simpl in Hkey0; congruence).
      unfold entry_of. rewrite (record_of_eq _ _ _ _ Hc), Hk. simpl. by apply Hval.
Qed.

(** X6. [get] reads: whether the key is new, known or already requested, a
    [get(key)] leaves the [value] of every key of the cache as it was (the
    record it makes for a new key has no value, like a missing record). *)
Theorem get_changes_no_value w this key :
  wf_cache w this →
  ∃ ent w', get this key w = Ok ent w'
            ∧ ∀ k, value_of w' this k = value_of w this k.
Proof.
  intros Hwf.
  destruct (run_call_keys w this (call_get key) Hwf) as (w' & Hrun & _ & _ & _ & Hval).
  simpl in Hrun. unfold bind in Hrun.
  destruct (get this key w) as [ent w1 |]; [| done]. injection Hrun as ->.
  exists ent, w'. split; [done |]. by apply (Hval key).
Qed.

(** X7. A call is about one key: a [get], a [set] or an inbound message for
    one key leaves every other key of the cache with the same record object
    and the same fields, and a disconnect leaves every key so. *)
Theorem call_touches_one_key w this call :
  wf_cache w this →
  ∃ w', run_call this call w = Ok tt w'
        ∧ ∀ k, call_key call ≠ Some k →
            record_of w' this k = record_of w this k
            ∧ entry_of w' this k = entry_of w this k.
Proof.
  intros Hwf.
  destruct (run_call_keys w this call Hwf) as (w' & Hrun & _ & Hframe & _).
  by exists w'.
Qed.

(** X8. Records exist exactly for the keys a caller asked about: after any
    sequence of calls a key has a record if and only if it had one before
    or some [get] or [set] among the calls named it.  No inbound message
    makes a record, for whatever key. *)
Theorem records_exist_for_asked_keys w this calls :
  wf_cache w this →
  ∃ w', run_calls this calls w = Ok tt w'
        ∧ ∀ k, is_Some (record_of w' this k)
               ↔ is_Some (record_of w this k) ∨ Exists (asks_for k) calls.
Proof.
  revert w. induction calls as [| call calls IH]; intros w Hwf.
  - exists w. split; [done |]. intros k. rewrite Exists_nil. tauto.
  - destruct (run_call_keys w this call Hwf) as (w1 & Hrun1 & Hwf1 & _ & Hdom1 & _).
    destruct (IH w1 Hwf1) as (w2 & Hrun2 & Hdom2).
    exists w2. split; [by simpl; unfold bind; rewrite Hrun1 |].
    intros k. rewrite Hdom2, Hdom1, Exists_cons. tauto.
Qed.

(** ** Last write wins *)

Lemma listener_overwrites m :
  overwrites m = true →
  ∃ v, (∀ w this c ent e,
          caches w !! this = Some c →
          _local_cache c !! Message.key m = Some ent →
          entries w !! ent = Some e →
          onMessage_listener this m w =
            Ok tt (mkWorld (<[ent := set_value v e]> (entries w))
                     (caches w) (ports w) (CACHES w) (console w)))
       ∧ (∀ w this c,
            caches w !! this = Some c →
            _local_cache c !! Message.key m = None →
            onMessage_listener this m w = Ok tt w).
Proof.
  intros [Ht%bool_decide_eq_true_1 | Ht%bool_decide_eq_true_1]%orb_prop.
  - exists (Message.value m). split.
    + intros. by eapply listener_entry_hit.
    + intros. by eapply listener_entry_miss.
  - exists None. split.
    + intros. by eapply listener_expiring_hit.
    + intros. by eapply listener_expiring_miss.
Qed.

(** X9. Last write wins, with no trace of the one before: an inbound
    ['entry'] or ['expiring'] for a key, followed at once by another write
    to the [value] of the same key (a [set], or a second inbound ['entry']
    or ['expiring']), leaves the environment exactly as the second write
    alone would have left it. *)
Theorem last_write_wins w this m1 call2 :
  wf_cache w this →
  overwrites m1 = true →
  writes_value (Message.key m1) call2 →
  run_calls this [deliver m1; call2] w = run_calls this [call2] w.
Proof.
  intros Hwf Hm1 Hcall2. pose proof Hwf as (c & Hc & [p Hp] & Hrec).
  destruct (listener_overwrites m1 Hm1) as (v1 & Hhit1 & Hmiss1).
  simpl. unfold bind at 1.
  destruct (_local_cache c !! Message.key m1) as [ent |] eqn:Hk.
  - destruct (Hrec _ _ Hk) as (e & He & _).
    rewrite (Hhit1 _ _ _ _ _ Hc Hk He).
    set (w1 := mkWorld (<[ent := set_value v1 e]> (entries w)) (caches w) (ports w)
                 (CACHES w) (console w)).
    assert (He1 : entries w1 !! ent = Some (set_value v1 e)) by apply lookup_insert_eq.
    unfold bind. destruct Hcall2 as [[v ->] | (m2 & -> & Hm2 & Hkey)]; simpl.
    + unfold bind.
      rewrite (set_hit w1 this c p _ v ent _ Hc Hp Hk He1).
      rewrite (set_hit w this c p _ v ent _ Hc Hp Hk He). simpl.
      by rewrite insert_insert_eq.
    + destruct (listener_overwrites m2 Hm2) as (v2 & Hhit2 & _).
      rewrite Hkey in Hhit2.
      rewrite (Hhit2 w1 this c ent _ Hc Hk He1), (Hhit2 w this c ent _ Hc Hk He). simpl.
      by rewrite insert_insert_eq.
  - by rewrite (Hmiss1 _ _ _ Hc Hk).
Qed.

(** ** Several caches side by side *)

(** A call changes the map of its own [Cache] at most, and the [posted]
    list of its own port at most. *)
Lemma run_call_wiring w w' this call :
  wf_cache w this →
  run_call this call w = Ok tt w' →
  (∀ that, that ≠ this → caches w' !! that = caches w !! that)
  ∧ (∀ that c', caches w' !! that = Some c' →
       ∃ c0, caches w !! that = Some c0
             ∧ _name c0 = _name c' ∧ _service c0 = _service c')
  ∧ (∀ that c0, caches w !! that = Some c0 →
       ∃ c', caches w' !! that = Some c'
             ∧ _name c' = _name c0 ∧ _service c' = _service c0)
  ∧ (∀ conn p0, ports w !! conn = Some p0 →
       ∃ p', ports w' !! conn = Some p'
             ∧ port_name p' = port_name p0
             ∧ onMessage p' = onMessage p0
             ∧ onDisconnect p' = onDisconnect p0
             ∧ (∀ c, caches w !! this = Some c → conn ≠ _service c → p' = p0)).
Proof.
  intros Hwf Hrun.
  destruct (run_call_shape w this call Hwf)
    as (w1 & c & p & Hrun1 & _ & Hc & Hp & _ & Hports & Hshape).
  rewrite Hrun in Hrun1. injection Hrun1 as <-.
  assert (HC : caches w' = caches w
               ∨ ∃ key0 ent, caches w' = <[this := _local_cache_set key0 ent c]> (caches w)).
  { destruct Hshape as [(_ & HC & _) | [Hupd | Hnew]]; [by left | |].
    - destruct Hupd as (? & ? & ? & ? & _ & _ & _ & _ & _ & _ & _ & HC). by left.
    - destruct Hnew as (key0 & ? & _ & _ & _ & _ & _ & HC). right. by eexists _, _. }
  split; [| split; [| split]].
  - intros that Hne. destruct HC as [-> | (? & ? & ->)]; [done |].
    by rewrite lookup_insert_ne.
  - intros that c' Hc'. destruct HC as [HC | (? & ? & HC)]; rewrite HC in Hc'.
    + by exists c'.
    + destruct (decide (that = this)) as [-> | Hne].
      * rewrite lookup_insert_eq in Hc'. injection Hc' as <-. by exists c.
      * rewrite lookup_insert_ne in Hc' by done. by exists c'.
  - intros that c0 Hc0. destruct HC as [-> | (? & ? & ->)].
    + by exists c0.
    + destruct (decide (that = this)) as [-> | Hne].
      * rewrite lookup_insert_eq. rewrite Hc in Hc0. injection Hc0 as <-. by eexists.
      * rewrite lookup_insert_ne by done. by exists c0.
  - intros conn p0 Hp0. destruct Hports as [-> | [m ->]].
    + by exists p0.
    + destruct (decide (conn = _service c)) as [-> | Hne].
      * rewrite lookup_insert_eq. rewrite Hp in Hp0. injection Hp0 as <-.
        eexists. repeat split; try done. intros c1 Hc1. congruence.
      * rewrite lookup_insert_ne by done. by exists p0.
Qed.

Lemma record_of_live w this k ent :
  record_of w this k = Some ent → is_Some (caches w !! this).
Proof. unfold record_of. destruct (caches w !! this); [by eexists | done]. Qed.

Lemma run_call_sound w w' this call :
  sound w → run_call this call w = Ok tt w' → sound w'.
Proof.
  intros (Hall & Hreg & Hent & Hport) Hrun.
  destruct (run_call_frame _ _ _ _ Hrun) as (HR & Hlive & _).
  pose proof (Hall _ Hlive) as Hwf.
  destruct (run_call_wiring _ _ _ _ Hwf Hrun) as (Hothers & Hback & Hforth & Hwire).
  destruct (run_call_keys w this call Hwf) as (w1 & Hrun1 & _ & _ & Hdom & _).
  destruct (run_call_step w this call Hwf) as (w2 & Hrun2 & _ & [Hkeep _] & _).
  rewrite Hrun in Hrun1, Hrun2. injection Hrun1 as <-. injection Hrun2 as <-.
  split; [by eapply run_call_all_wf |]. split; [| split].
  - intros name cache Hname. rewrite HR in Hname.
    destruct (Hreg _ _ Hname) as (c0 & p0 & Hc0 & Hn0 & Hp0 & Hpn & Hom & Hod).
    destruct (Hforth _ _ Hc0) as (c' & Hc' & Hn' & Hs').
    destruct (Hwire _ _ Hp0) as (p' & Hp' & Hpn' & Hom' & Hod' & _).
    exists c', p'. rewrite Hs'. repeat split; congruence.
  - (* a record of [w'] is a record of [w] or a new object *)
    assert (Hold : ∀ x k ent, record_of w' x k = Some ent →
              record_of w x k = Some ent ∨ (x = this ∧ entries w !! ent = None)).
    { intros x k ent Hx. destruct (decide (x = this)) as [-> | Hne].
      - destruct (record_of w this k) as [ent0 |] eqn:Hk0.
        + left. rewrite (Hkeep _ _ Hk0) in Hx. done.
        + right. split; [done |].
          destruct (entries w !! ent) as [e |] eqn:He; [| done].
          destruct (run_call_shape w this call Hwf)
            as (w3 & c & p & Hrun3 & _ & Hc & _ & _ & _ & Hshape).
          rewrite Hrun in Hrun3. injection Hrun3 as <-.
          destruct Hshape as [(_ & HC & _) | [Hupd | Hnew]].
          * unfold record_of in Hx, Hk0. rewrite HC in Hx. congruence.
          * destruct Hupd as (? & ? & ? & ? & _ & _ & _ & _ & _ & _ & _ & HC).
            unfold record_of in Hx, Hk0. rewrite HC in Hx. congruence.
          * destruct Hnew as (key0 & e' & _ & Hk & _ & _ & HE & HC).
            destruct (entry_of_after_alloc w w' this c e' key0 Hwf Hc Hk HE HC k) as [Hr _].
            rewrite Hr in Hx. case_decide; [| congruence].
            injection Hx as <-. by rewrite fresh_entry_None in He.
      - left. unfold record_of in *. by rewrite (Hothers _ Hne) in Hx. }
    assert (Hlive_rec : ∀ x k ent, record_of w x k = Some ent → is_Some (entries w !! ent)).
    { intros x k ent Hx. destruct (Hall x (record_of_live _ _ _ _ Hx)) as (c & Hc & _ & Hrec).
      rewrite (record_of_eq _ _ _ _ Hc) in Hx.
      destruct (Hrec _ _ Hx) as (e & He & _). by eexists. }
    intros x y k1 k2 ent Hne Hx Hy.
    destruct (Hold _ _ _ Hx) as [Hx0 | [-> Hfresh]];
      destruct (Hold _ _ _ Hy) as [Hy0 | [-> Hfresh']]; try done.
    + by apply (Hent x y k1 k2 ent).
    + destruct (Hlive_rec _ _ _ Hx0) as [e He]. congruence.
    + destruct (Hlive_rec _ _ _ Hy0) as [e He]. congruence.
  - intros x y c1 c2 Hne Hx Hy.
    destruct (Hback _ _ Hx) as (c1' & Hx' & _ & <-).
    destruct (Hback _ _ Hy) as (c2' & Hy' & _ & <-).
    by apply (Hport x y).
Qed.

Lemma open_sound w w' name cache :
  sound w → open name w = Ok cache w' → sound w'.
Proof.
  intros (Hall & Hreg & Hent & Hport) Hopen.
  split; [by eapply open_all_wf |].
  destruct (CACHES w !! name) as [cache' |] eqn:Hfree.
  { rewrite (open_registered _ _ _ Hfree) in Hopen. by injection Hopen as _ <-. }
  rewrite (open_unregistered _ _ Hfree) in Hopen. simpl in Hopen.
  injection Hopen as <- <-.
  set (this := fresh (dom (caches w))). set (conn := fresh (dom (ports w))).
  assert (Hnew : caches w !! this = None) by apply not_elem_of_dom, is_fresh.
  assert (Hconn : ports w !! conn = None) by apply not_elem_of_dom, is_fresh.
  assert (Hport_live : ∀ x c, caches w !! x = Some c → _service c ≠ conn).
  { intros x c Hx <-. destruct (Hall x) as (c0 & Hc0 & [p Hp] & _); [by eexists |].
    congruence. }
  assert (Hrec : ∀ x k, record_of (mkWorld (entries w)
                   (<[this := mkCache ∅ name conn]> (caches w))
                   (<[conn := mkPort ("cache:" +:+ name) [] [this] [this]]> (ports w))
                   (<[name := this]> (CACHES w)) (console w)) x k
                 = if decide (x = this) then None else record_of w x k).
  { intros x k. unfold record_of. simpl. case_decide as Hx.
    - subst x. by rewrite lookup_insert_eq.
    - by rewrite lookup_insert_ne. }
  split; [| split].
  - intros name' cache'. simpl. destruct (decide (name' = name)) as [-> | Hne].
    + rewrite lookup_insert_eq. intros [= <-]. eexists _, _.
      split; [apply lookup_insert_eq |]. simpl. split; [done |].
      split; [apply lookup_insert_eq |]. done.
    + rewrite lookup_insert_ne by done. intros Hname.
      destruct (Hreg _ _ Hname) as (c0 & p0 & Hc0 & Hn0 & Hp0 & Hrest).
      exists c0, p0.
      rewrite lookup_insert_ne by congruence.
      rewrite lookup_insert_ne by (apply not_eq_sym; eauto).
      destruct Hrest as (? & ? & ?). by repeat split.
  - intros x y k1 k2 ent Hne. rewrite !Hrec.
    repeat case_decide; try done. by apply Hent.
  - intros x y c1 c2 Hne. simpl.
    destruct (decide (x = this)) as [-> | Hx]; destruct (decide (y = this)) as [-> | Hy];
      try done; rewrite ?lookup_insert_eq, ?lookup_insert_ne by done.
    + intros [= <-] Hy'. simpl. apply not_eq_sym. eauto.
    + intros Hx' [= <-]. simpl. eauto.
    + by apply Hport.
Qed.

Lemma run_events_sound (evs : list Event) w w' :
  sound w → run_events evs w = Ok tt w' → sound w'.
Proof.
  revert w. induction evs as [| ev evs IH]; intros w Hsound; simpl.
  - by intros [= <-].
  - unfold bind. destruct (run_event ev w) as [[] w1 |] eqn:Hev; [| done].
    apply IH. destruct ev as [name | this call]; simpl in Hev.
    + unfold bind in Hev. destruct (open name w) as [cache w2 |] eqn:Hopen; [| done].
      injection Hev as <-. by eapply open_sound.
    + by eapply run_call_sound.
Qed.

Lemma empty_world_sound : sound (empty_world (Content:=Content)).
Proof.
  split; [| split; [| split]].
  - intros this [c Hc]. simpl in Hc. by rewrite lookup_empty in Hc.
  - intros name cache Hname. simpl in Hname. by rewrite lookup_empty in Hname.
  - intros x y k1 k2 ent _ Hx. unfold record_of in Hx. simpl in Hx.
    by rewrite lookup_empty in Hx.
  - intros x y c1 c2 _ Hx. simpl in Hx. by rewrite lookup_empty in Hx.
Qed.

Lemma reachable_sound (evs : list Event) w :
  run_events evs empty_world = Ok tt w → sound w.
Proof. apply run_events_sound, empty_world_sound. Qed.

(** X10. One client per cache name, wired as [open] wired it: in every
    environment a page can reach from nothing by [open]s, calls and inbound
    messages, a name registered in [CACHES] stands for a live [Cache] whose
    [_name] is that name and whose port is named ["cache:" + name] and has
    that [Cache], and nothing else, as its [onMessage] and as its
    [onDisconnect] listener; and no other name stands for the same
    [Cache]. *)
Theorem registry_names_its_clients (evs : list Event) w name cache :
  run_events evs empty_world = Ok tt w →
  CACHES w !! name = Some cache →
  (∃ c p, caches w !! cache = Some c
          ∧ _name c = name
          ∧ ports w !! _service c = Some p
          ∧ port_name p = "cache:" +:+ name
          ∧ onMessage p = [cache]
          ∧ onDisconnect p = [cache])
  ∧ ∀ name', CACHES w !! name' = Some cache → name' = name.
Proof.
  intros Hreach Hname. destruct (reachable_sound _ _ Hreach) as (_ & Hreg & _).
  split; [by apply Hreg |].
  intros name' Hname'.
  destruct (Hreg _ _ Hname) as (c & _ & Hc & Hn & _).
  destruct (Hreg _ _ Hname') as (c' & _ & Hc' & Hn' & _). congruence.
Qed.

(** X11. Caches do not interfere: in every environment a page can reach,
    an [open] of any name and any call or inbound message on another
    [Cache] leave a live [Cache] with the same record object and the same
    fields under every key, and with the same messages posted. *)
Theorem caches_are_independent (evs : list Event) w this (ev : Event) w' :
  run_events evs empty_world = Ok tt w →
  is_Some (caches w !! this) →
  ¬ targets this ev →
  run_event ev w = Ok tt w' →
  ∀ k, record_of w' this k = record_of w this k
       ∧ entry_of w' this k = entry_of w this k
       ∧ sent w' this = sent w this.
Proof.
  intros Hreach Hlive Hnot Hev.
  destruct (reachable_sound _ _ Hreach) as (Hall & _ & Hent & Hport).
  pose proof (Hall _ Hlive) as (c & Hc & [p Hp] & Hrec).
  assert (Hgoal : caches w' !! this = Some c
                  ∧ ports w' !! _service c = Some p
                  ∧ ∀ k ent, _local_cache c !! k = Some ent →
                      entries w' !! ent = entries w !! ent).
  { destruct ev as [name | that call]; simpl in Hev.
    - unfold bind in Hev. destruct (CACHES w !! name) as [cache |] eqn:Hfree.
      + rewrite (open_registered _ _ _ Hfree) in Hev. by injection Hev as <-.
      + rewrite (open_unregistered _ _ Hfree) in Hev. simpl in Hev.
        injection Hev as <-. simpl.
        split; [| split; [| done]].
        * rewrite lookup_insert_ne; [done |]. intros Heq.
          pose proof (is_fresh (dom (caches w))) as Hfresh.
          rewrite Heq in Hfresh. by apply Hfresh, elem_of_dom.
        * rewrite lookup_insert_ne; [done |]. intros Heq.
          pose proof (is_fresh (dom (ports w))) as Hfresh.
          rewrite Heq in Hfresh. apply Hfresh, elem_of_dom. by eexists.
    - assert (Hne : that ≠ this) by (intros ->; apply Hnot; by eexists).
      destruct (run_call_frame _ _ _ _ Hev) as (_ & Hlive' & _).
      pose proof (Hall _ Hlive') as Hwf.
      destruct (run_call_shape w that call Hwf)
        as (w1 & c_that & p_that & Hrun1 & _ & Hc_that & Hp_that & _ & Hports & Hshape).
      rewrite Hev in Hrun1. injection Hrun1 as <-.
      destruct (run_call_wiring _ _ _ _ Hwf Hev) as (Hothers & _ & _ & Hwire).
      split; [| split].
      + rewrite Hothers; [done | by apply not_eq_sym].
      + destruct (Hwire _ _ Hp) as (p' & Hp' & _ & _ & _ & Hsame).
        rewrite (Hsame _ Hc_that) in Hp'; [done |].
        by apply (Hport this that).
      + intros k ent Hk. destruct Hshape as [(HE & _) | [Hupd | Hnew]].
        * by rewrite HE.
        * destruct Hupd as (key0 & ent0 & ? & ? & _ & Hk0 & _ & _ & _ & _ & HE & _).
          rewrite HE, lookup_insert_ne; [done |]. intros ->.
          apply (Hent this that k key0 ent); [by apply not_eq_sym | |].
          -- by rewrite (record_of_eq _ _ _ _ Hc).
          -- by rewrite (record_of_eq _ _ _ _ Hc_that).
        * destruct Hnew as (key0 & e' & _ & _ & _ & _ & HE & _).
          rewrite HE, lookup_insert_ne; [done |].
          destruct (Hrec _ _ Hk) as (e & He & _).
          apply not_eq_sym. by apply (live_not_fresh _ _ e). }
  destruct Hgoal as (Hc' & Hp' & HE). intros k.
  assert (Hr : record_of w' this k = record_of w this k)
    by (by rewrite !(record_of_eq _ _ c)).
  split; [done |]. split.
  - unfold entry_of. rewrite Hr, (record_of_eq _ _ _ _ Hc).
    destruct (_local_cache c !! k) as [ent |] eqn:Hk; [| done]. simpl. eauto.
  - by rewrite (sent_eq _ _ _ _ Hc Hp), (sent_eq _ _ _ _ Hc' Hp').
Qed.

(** ** Calling the constructor directly *)

Lemma fresh_insert_ne {V} (m : gmap positive V) i x :
  fresh (dom (<[i := x]> m)) ≠ i.
Proof.
  intros Heq. apply (is_fresh (dom (<[i := x]> m))). rewrite Heq.
  apply elem_of_dom. rewrite lookup_insert_eq. by eexists.
Qed.

Lemma constructor_ok w name conn p :
  ports w !! conn = Some p →
  constructor name conn w =
    let this := fresh (dom (caches w)) in
    Ok this (mkWorld (entries w)
               (<[this := mkCache ∅ name conn]> (caches w))
               (<[conn := mkPort (port_name p) (posted p)
                            (onDisconnect p ++ [this]) (onMessage p ++ [this])]> (ports w))
               (CACHES w) (console w)).
Proof.
  intros Hp.
  unfold constructor, bind, new_cache, onDisconnect_addListener, onMessage_addListener,
    write_port, with_caches, with_ports, ret. simpl. rewrite Hp. simpl.
  rewrite lookup_insert_eq. simpl. by rewrite insert_insert_eq.
Qed.

(** X12. Why the constructor is not to be called directly: given a live
    port, [new Cache(name, conn)] returns a new, empty [Cache] listening on
    that port, and leaves [CACHES] alone.  So if [name] was free it still
    is, and an [open(name)] made afterwards builds a second client for the
    same name, a different object on a different port. *)
Theorem constructor_bypasses_registry w name conn :
  is_Some (ports w !! conn) →
  ∃ this w1,
    constructor name conn w = Ok this w1
    ∧ caches w !! this = None
    ∧ caches w1 !! this = Some (mkCache ∅ name conn)
    ∧ CACHES w1 = CACHES w
    ∧ (CACHES w !! name = None →
         ∃ other w2 c,
           open name w1 = Ok other w2
           ∧ other ≠ this
           ∧ caches w2 !! other = Some c
           ∧ _service c ≠ conn
           ∧ caches w2 !! this = Some (mkCache ∅ name conn)).
Proof.
  intros [p Hp]. rewrite (constructor_ok _ _ _ _ Hp). simpl.
  eexists _, _. split; [done |]. simpl.
  split; [apply not_elem_of_dom, is_fresh |].
  split; [apply lookup_insert_eq |]. split; [done |].
  intros Hfree. erewrite open_unregistered by exact Hfree. simpl.
  eexists _, _, _. split; [done |]. simpl.
  split; [apply fresh_insert_ne |]. split; [apply lookup_insert_eq |]. simpl.
  split; [apply fresh_insert_ne |].
  rewrite lookup_insert_ne by apply fresh_insert_ne. apply lookup_insert_eq.
Qed.

(** ** What sets [requested] *)

Lemma got_or_not key calls : call_get key ∈ calls ∨ call_get key ∉ calls.
Proof.
  induction calls as [| call calls [IH | IH]].
  - right. apply not_elem_of_nil.
  - left. by apply list_elem_of_further.
  - destruct call as [k | | |];
      try (right; apply not_elem_of_cons; by split).
    destruct (decide (k = key)) as [-> | Hne].
    + left. apply list_elem_of_here.
    + right. apply not_elem_of_cons. split; [congruence | done].
Qed.

(** X14. [requested] records whether [get] was called, and nothing else:
    after any sequence of calls the flag of a key is set if and only if it
    was set before or a [get] of that key is among the calls ([set] and
    inbound messages never set it); and the calls posted one [Fetch] for
    the key if they set the flag, none otherwise. *)
Theorem requested_means_get_was_called w this key calls :
  wf_cache w this →
  ∃ w', run_calls this calls w = Ok tt w'
        ∧ (requested_of w' this key = true
           ↔ requested_of w this key = true ∨ call_get key ∈ calls)
        ∧ fetches_for key (sent w' this)
          = fetches_for key (sent w this)
            + (if negb (requested_of w this key) && requested_of w' this key
               then 1 else 0).
Proof.
  intros Hwf.
  destruct (run_calls_steps w this calls Hwf) as (w' & Hrun & _ & _ & Hacc).
  destruct (Hacc key) as ([Hf Hmono] & Hget & Hsame).
  exists w'. split; [done |]. split; [| done]. split.
  - intros Hreq. destruct (requested_of w this key) eqn:Hold; [by left |].
    right. destruct (got_or_not key calls) as [Hin | Hnin]; [done |].
    rewrite (Hsame Hnin) in Hreq. congruence.
  - intros [Hold | Hin]; auto.
Qed.

End CacheClientFacts.

(** ** The properties at work on the ["settings"] cache *)

Lemma records_are_never_removed_witness :
  wf_cache Demo.answered 1
  ∧ ∃ w' e',
      run_calls 1 [call_set "theme" "light"; deliver (Expiring "theme");
                   call_get "volume"; deliver (Fetch "theme"); disconnect] Demo.answered
        = Ok tt w'
      ∧ record_of w' 1 "theme" = Some 1%positive
      ∧ entries w' !! 1%positive = Some e'
      ∧ CacheEntry.key e' = "theme".
Proof.
  assert (Hwf : wf_cache Demo.answered 1) by (apply wf_cacheb_correct; vm_compute; reflexivity).
  split; [exact Hwf |].
  apply (records_are_never_removed Demo.answered 1 "theme" 1 Demo.theme_dark _ Hwf);
    vm_compute; reflexivity.
Defined.

Lemma get_sends_exactly_one_fetch_witness :
  wf_cache Demo.opened 1
  ∧ ∃ w1 ent w2 e2 w3,
      run_calls 1 [call_get "theme"; call_set "volume" "11"] Demo.opened = Ok tt w1
      ∧ fetches_for "volume" (sent w1 1) = fetches_for "volume" (sent Demo.opened 1)
      ∧ get 1 "volume" w1 = Ok ent w2
      ∧ sent w2 1 = sent w1 1 ++ [Fetch "volume"]
      ∧ entries w2 !! ent = Some e2 ∧ CacheEntry.requested e2 = true
      ∧ run_calls 1 [call_get "volume"; deliver (Expiring "volume"); call_get "volume"] w2
          = Ok tt w3
      ∧ fetches_for "volume" (sent w3 1) = fetches_for "volume" (sent w2 1)
      ∧ fetches_for "volume" (sent w3 1) = fetches_for "volume" (sent Demo.opened 1) + 1
      ∧ get 1 "volume" w3 = Ok ent w3.
Proof.
  assert (Hwf : wf_cache Demo.opened 1) by (apply wf_cacheb_correct; vm_compute; reflexivity).
  split; [exact Hwf |].
  apply (get_sends_exactly_one_fetch Demo.opened 1 "volume" _ _ Hwf); [vm_compute; reflexivity |].
  intros Hin. repeat (apply elem_of_cons in Hin as [Hin | Hin]; [discriminate Hin |]).
  by apply elem_of_nil in Hin.
Defined.

Lemma open_is_idempotent_witness :
  ∃ cache w1,
    open "settings" (empty_world (Content:=string)) = Ok cache w1
    ∧ CACHES w1 !! "settings" = Some cache
    ∧ (CACHES (empty_world (Content:=string)) !! "settings" = None →
         caches (empty_world (Content:=string)) !! cache = None
         ∧ is_Some (caches w1 !! cache)
         ∧ CACHES w1 = <["settings" := cache]> (CACHES (empty_world (Content:=string))))
    ∧ (is_Some (CACHES (empty_world (Content:=string)) !! "settings") → w1 = empty_world)
    ∧ ∀ (evs : list Event) w2,
        run_events evs w1 = Ok tt w2 → open "settings" w2 = Ok cache w2.
Proof. exact (open_is_idempotent empty_world "settings"). Defined.

Lemma set_is_visible_at_once_witness :
  wf_cache Demo.opened 1
  ∧ ∃ ent w1 w2,
      set 1 "theme" "light" Demo.opened = Ok ent w1
      ∧ (∀ ent0, record_of Demo.opened 1 "theme" = Some ent0 → ent0 = ent)
      ∧ (record_of Demo.opened 1 "theme" = None → entries Demo.opened !! ent = None)
      ∧ record_of w1 1 "theme" = Some ent
      ∧ entries w1 !! ent
        = Some (CacheEntry.mk "theme" (Some "light") (requested_of Demo.opened 1 "theme"))
      ∧ sent w1 1 = sent Demo.opened 1 ++ [Entry "theme" "light"]
      ∧ get 1 "theme" w1 = Ok ent w2
      ∧ entries w2 !! ent = Some (CacheEntry.mk "theme" (Some "light") true).
Proof.
  assert (Hwf : wf_cache Demo.opened 1) by (apply wf_cacheb_correct; vm_compute; reflexivity).
  split; [exact Hwf |].
  exact (set_is_visible_at_once Demo.opened 1 "theme" "light" Hwf).
Defined.

Lemma inbound_entry_overwrites_value_witness :
  wf_cache Demo.fetched 1
  ∧ ∃ e,
      entries Demo.fetched !! 1%positive = Some e
      ∧ onMessage_listener 1 (Entry "theme" "dark") Demo.fetched =
          Ok tt (mkWorld
                   (<[1%positive := CacheEntry.mk (CacheEntry.key e) (Some "dark")
                                      (CacheEntry.requested e)]> (entries Demo.fetched))
                   (caches Demo.fetched) (ports Demo.fetched) (CACHES Demo.fetched) (console Demo.fetched))
      ∧ ∀ w0 ent0, wf_cache w0 1 → get 1 "theme" w0 = Ok ent0 Demo.fetched → ent0 = 1%positive.
Proof.
  assert (Hwf : wf_cache Demo.fetched 1) by (apply wf_cacheb_correct; vm_compute; reflexivity).
  split; [exact Hwf |].
  apply (inbound_entry_overwrites_value Demo.fetched 1 (Entry "theme" "dark") 1 Hwf);
    vm_compute; reflexivity.
Defined.

Lemma inbound_expiring_clears_value_witness :
  wf_cache Demo.answered 1
  ∧ ∃ e w' w'',
      entries Demo.answered !! 1%positive = Some e
      ∧ onMessage_listener 1 (Expiring "theme") Demo.answered = Ok tt w'
      ∧ w' = mkWorld
               (<[1%positive := CacheEntry.mk (CacheEntry.key e) None
                                  (CacheEntry.requested e)]> (entries Demo.answered))
               (caches Demo.answered) (ports Demo.answered) (CACHES Demo.answered) (console Demo.answered)
      ∧ record_of w' 1 "theme" = Some 1%positive
      ∧ requested_of w' 1 "theme" = CacheEntry.requested e
      ∧ get 1 "theme" w' = Ok 1%positive w''
      ∧ (CacheEntry.requested e = true → w'' = w').
Proof.
  assert (Hwf : wf_cache Demo.answered 1) by (apply wf_cacheb_correct; vm_compute; reflexivity).
  split; [exact Hwf |].
  apply (inbound_expiring_clears_value Demo.answered 1 (Expiring "theme") 1 Hwf);
    vm_compute; reflexivity.
Defined.

Lemma inbound_entry_for_unknown_key_is_dropped_witness :
  onMessage_listener 1 (Entry "volume" "11") Demo.fetched = Ok tt Demo.fetched.
Proof.
  apply inbound_entry_for_unknown_key_is_dropped.
  - vm_compute. by eexists.
  - reflexivity.
  - vm_compute. reflexivity.
Defined.

Lemma inbound_unknown_message_is_only_logged_witness :
  ∃ line,
    onMessage_listener 1 (Fetch "theme") Demo.fetched =
      Ok tt (mkWorld (entries Demo.fetched) (caches Demo.fetched) (ports Demo.fetched) (CACHES Demo.fetched)
               (console Demo.fetched ++ [console_warn_line line])).
Proof.
  apply inbound_unknown_message_is_only_logged.
  - vm_compute. by eexists.
  - discriminate.
  - discriminate.
Defined.

Lemma get_returns_a_record_at_once_witness :
  wf_cache Demo.opened 1
  ∧ ∃ ent w0 w1,
      _cached 1 "theme" Demo.opened = Ok ent w0
      ∧ (∀ ent0, record_of Demo.opened 1 "theme" = Some ent0 → ent0 = ent ∧ w0 = Demo.opened)
      ∧ (record_of Demo.opened 1 "theme" = None →
           entries Demo.opened !! ent = None
           ∧ entries w0 !! ent = Some (CacheEntry.mk "theme" None false)
           ∧ record_of w0 1 "theme" = Some ent
           ∧ entries w1 !! ent = Some (CacheEntry.mk "theme" None true)
           ∧ sent w1 1 = sent Demo.opened 1 ++ [Fetch "theme"])
      ∧ get 1 "theme" Demo.opened = Ok ent w1
      ∧ record_of w1 1 "theme" = Some ent
      ∧ get 1 "theme" w1 = Ok ent w1.
Proof.
  assert (Hwf : wf_cache Demo.opened 1) by (apply wf_cacheb_correct; vm_compute; reflexivity).
  split; [exact Hwf |].
  exact (get_returns_a_record_at_once Demo.opened 1 "theme" Hwf).
Defined.

Lemma set_never_fetches_witness :
  wf_cache Demo.opened 1
  ∧ ∃ ent w1,
      set 1 "theme" "light" Demo.opened = Ok ent w1
      ∧ sent w1 1 = sent Demo.opened 1 ++ [Entry "theme" "light"]
      ∧ (∀ k, fetches_for k (sent w1 1) = fetches_for k (sent Demo.opened 1))
      ∧ (∀ k, requested_of w1 1 k = requested_of Demo.opened 1 k)
      ∧ (record_of Demo.opened 1 "theme" = None →
           ∃ w2, entries w1 !! ent = Some (CacheEntry.mk "theme" (Some "light") false)
                 ∧ get 1 "theme" w1 = Ok ent w2
                 ∧ sent w2 1 = sent w1 1 ++ [Fetch "theme"]
                 ∧ entries w2 !! ent = Some (CacheEntry.mk "theme" (Some "light") true)).
Proof.
  assert (Hwf : wf_cache Demo.opened 1) by (apply wf_cacheb_correct; vm_compute; reflexivity).
  split; [exact Hwf |].
  exact (set_never_fetches Demo.opened 1 "theme" "light" Hwf).
Defined.


(** ** The further properties at work *)

Lemma inbound_expiring_for_unknown_key_is_dropped_witness :
  onMessage_listener 1 (Expiring "volume") Demo.fetched = Ok tt Demo.fetched.
Proof.
  apply inbound_expiring_for_unknown_key_is_dropped.
  - vm_compute. by eexists.
  - reflexivity.
  - vm_compute. reflexivity.
Defined.

Lemma listeners_only_assign_values_witness :
  wf_cache Demo.fetched 1
  ∧ ∃ w', run_call 1 (deliver (Entry "theme" "dark")) Demo.fetched = Ok tt w'
          ∧ caches w' = caches Demo.fetched
          ∧ ports w' = ports Demo.fetched
          ∧ CACHES w' = CACHES Demo.fetched
          ∧ dom (entries w') = dom (entries Demo.fetched)
          ∧ sent w' 1 = sent Demo.fetched 1
          ∧ ∀ k, record_of w' 1 k = record_of Demo.fetched 1 k
                 ∧ requested_of w' 1 k = requested_of Demo.fetched 1 k.
Proof.
  assert (Hwf : wf_cache Demo.fetched 1)
    by (apply wf_cacheb_correct; vm_compute; reflexivity).
  split; [exact Hwf |].
  exact (listeners_only_assign_values Demo.fetched 1 (deliver (Entry "theme" "dark"))
           Hwf eq_refl).
Defined.

Lemma requested_is_a_latch_witness :
  wf_cache Demo.answered 1
  ∧ requested_of Demo.answered 1 "theme" = true
  ∧ ∃ w', run_calls 1 [deliver (Expiring "theme"); call_get "theme";
                       call_set "theme" "light"] Demo.answered = Ok tt w'
          ∧ requested_of w' 1 "theme" = true
          ∧ fetches_for "theme" (sent w' 1) = fetches_for "theme" (sent Demo.answered 1).
Proof.
  assert (Hwf : wf_cache Demo.answered 1)
    by (apply wf_cacheb_correct; vm_compute; reflexivity).
  assert (Hreq : requested_of Demo.answered 1 "theme" = true) by (vm_compute; reflexivity).
  split; [exact Hwf |]. split; [exact Hreq |].
  exact (requested_is_a_latch Demo.answered 1 "theme" _ Hwf Hreq).
Defined.

Lemma only_asked_messages_are_posted_witness :
  wf_cache Demo.opened 1
  ∧ ∃ w' news,
      run_calls 1 [call_get "theme"; deliver (Entry "theme" "dark");
                   call_set "theme" "light"; call_get "theme"] Demo.opened = Ok tt w'
      ∧ sent w' 1 = sent Demo.opened 1 ++ news
      ∧ Forall (asked_by [call_get "theme"; deliver (Entry "theme" "dark");
                          call_set "theme" "light"; call_get "theme"]) news.
Proof.
  assert (Hwf : wf_cache Demo.opened 1)
    by (apply wf_cacheb_correct; vm_compute; reflexivity).
  split; [exact Hwf |].
  exact (only_asked_messages_are_posted Demo.opened 1 _ Hwf).
Defined.

Lemma writes_are_forwarded_in_order_witness :
  wf_cache Demo.opened 1
  ∧ ∃ w',
      run_calls 1 [call_set "theme" "light"; call_get "theme";
                   call_set "theme" "light"; call_set "volume" "11"] Demo.opened = Ok tt w'
      ∧ entries_posted (sent w' 1)
        = entries_posted (sent Demo.opened 1)
          ++ [Entry "theme" "light"; Entry "theme" "light"; Entry "volume" "11"].
Proof.
  assert (Hwf : wf_cache Demo.opened 1)
    by (apply wf_cacheb_correct; vm_compute; reflexivity).
  split; [exact Hwf |].
  exact (writes_are_forwarded_in_order Demo.opened 1
           [call_set "theme" "light"; call_get "theme";
            call_set "theme" "light"; call_set "volume" "11"] Hwf).
Defined.

Lemma get_changes_no_value_witness :
  wf_cache Demo.answered 1
  ∧ ∃ ent w', get 1 "theme" Demo.answered = Ok ent w'
              ∧ ∀ k, value_of w' 1 k = value_of Demo.answered 1 k.
Proof.
  assert (Hwf : wf_cache Demo.answered 1)
    by (apply wf_cacheb_correct; vm_compute; reflexivity).
  split; [exact Hwf |].
  exact (get_changes_no_value Demo.answered 1 "theme" Hwf).
Defined.

Lemma call_touches_one_key_witness :
  wf_cache Demo.answered 1
  ∧ ∃ w', run_call 1 (call_set "volume" "11") Demo.answered = Ok tt w'
          ∧ ∀ k, Some "volume" ≠ Some k →
              record_of w' 1 k = record_of Demo.answered 1 k
              ∧ entry_of w' 1 k = entry_of Demo.answered 1 k.
Proof.
  assert (Hwf : wf_cache Demo.answered 1)
    by (apply wf_cacheb_correct; vm_compute; reflexivity).
  split; [exact Hwf |].
  exact (call_touches_one_key Demo.answered 1 (call_set "volume" "11") Hwf).
Defined.

Lemma records_exist_for_asked_keys_witness :
  wf_cache Demo.opened 1
  ∧ ∃ w', run_calls 1 [deliver (Entry "theme" "dark"); call_get "volume"] Demo.opened
          = Ok tt w'
          ∧ ∀ k, is_Some (record_of w' 1 k)
                 ↔ is_Some (record_of Demo.opened 1 k)
                   ∨ Exists (asks_for k) [deliver (Entry "theme" "dark"); call_get "volume"].
Proof.
  assert (Hwf : wf_cache Demo.opened 1)
    by (apply wf_cacheb_correct; vm_compute; reflexivity).
  split; [exact Hwf |].
  exact (records_exist_for_asked_keys Demo.opened 1 _ Hwf).
Defined.

Lemma last_write_wins_witness :
  wf_cache Demo.answered 1
  ∧ run_calls 1 [deliver (Expiring "theme"); call_set "theme" "light"] Demo.answered
    = run_calls 1 [call_set "theme" "light"] Demo.answered.
Proof.
  assert (Hwf : wf_cache Demo.answered 1)
    by (apply wf_cacheb_correct; vm_compute; reflexivity).
  split; [exact Hwf |].
  apply (last_write_wins Demo.answered 1 (Expiring "theme") (call_set "theme" "light") Hwf).
  - reflexivity.
  - left. by exists "light".
Defined.

Lemma registry_names_its_clients_witness :
  run_events Demo.script empty_world = Ok tt Demo.two_caches
  ∧ CACHES Demo.two_caches !! "favicons" = Some 2%positive
  ∧ (∃ c p, caches Demo.two_caches !! 2%positive = Some c
            ∧ _name c = "favicons"
            ∧ ports Demo.two_caches !! _service c = Some p
            ∧ port_name p = "cache:" +:+ "favicons"
            ∧ onMessage p = [2%positive]
            ∧ onDisconnect p = [2%positive])
  ∧ ∀ name', CACHES Demo.two_caches !! name' = Some 2%positive → name' = "favicons".
Proof.
  assert (Hrun : run_events Demo.script empty_world = Ok tt Demo.two_caches)
    by (vm_compute; reflexivity).
  assert (Hreg : CACHES Demo.two_caches !! "favicons" = Some 2%positive)
    by (vm_compute; reflexivity).
  split; [exact Hrun |]. split; [exact Hreg |].
  exact (registry_names_its_clients Demo.script Demo.two_caches "favicons" 2 Hrun Hreg).
Defined.

Lemma caches_are_independent_witness :
  run_events Demo.script empty_world = Ok tt Demo.two_caches
  ∧ run_event (ev_call 2 (call_set "theme" "light")) Demo.two_caches
    = Ok tt (world_after (set 2 "theme" "light") Demo.two_caches)
  ∧ ∀ k, record_of (world_after (set 2 "theme" "light") Demo.two_caches) 1 k
         = record_of Demo.two_caches 1 k
         ∧ entry_of (world_after (set 2 "theme" "light") Demo.two_caches) 1 k
           = entry_of Demo.two_caches 1 k
         ∧ sent (world_after (set 2 "theme" "light") Demo.two_caches) 1
           = sent Demo.two_caches 1.
Proof.
  assert (Hrun : run_events Demo.script empty_world = Ok tt Demo.two_caches)
    by (vm_compute; reflexivity).
  assert (Hev : run_event (ev_call 2 (call_set "theme" "light")) Demo.two_caches
                = Ok tt (world_after (set 2 "theme" "light") Demo.two_caches))
    by (vm_compute; reflexivity).
  split; [exact Hrun |]. split; [exact Hev |].
  apply (caches_are_independent Demo.script Demo.two_caches 1
           (ev_call 2 (call_set "theme" "light")) _ Hrun); [| | exact Hev].
  - vm_compute. by eexists.
  - intros [call Heq]. discriminate Heq.
Defined.

Lemma constructor_bypasses_registry_witness :
  is_Some (ports Demo.opened !! 1%positive)
  ∧ ∃ this w1,
      constructor "favicons" 1 Demo.opened = Ok this w1
      ∧ caches Demo.opened !! this = None
      ∧ caches w1 !! this = Some (mkCache ∅ "favicons" 1)
      ∧ CACHES w1 = CACHES Demo.opened
      ∧ (CACHES Demo.opened !! "favicons" = None →
           ∃ other w2 c,
             open "favicons" w1 = Ok other w2
             ∧ other ≠ this
             ∧ caches w2 !! other = Some c
             ∧ _service c ≠ 1%positive
             ∧ caches w2 !! this = Some (mkCache ∅ "favicons" 1)).
Proof.
  assert (Hp : is_Some (ports Demo.opened !! 1%positive)) by (vm_compute; by eexists).
  split; [exact Hp |].
  exact (constructor_bypasses_registry Demo.opened "favicons" 1 Hp).
Defined.


Lemma requested_means_get_was_called_witness :
  wf_cache Demo.opened 1
  ∧ ∃ w', run_calls 1 [call_set "theme" "light"; deliver (Entry "theme" "dark")]
            Demo.opened = Ok tt w'
          ∧ (requested_of w' 1 "theme" = true
             ↔ requested_of Demo.opened 1 "theme" = true
               ∨ call_get "theme" ∈ [call_set "theme" "light"; deliver (Entry "theme" "dark")])
          ∧ fetches_for "theme" (sent w' 1)
            = fetches_for "theme" (sent Demo.opened 1)
              + (if negb (requested_of Demo.opened 1 "theme") && requested_of w' 1 "theme"
                 then 1 else 0).
Proof.
  assert (Hwf : wf_cache Demo.opened 1)
    by (apply wf_cacheb_correct; vm_compute; reflexivity).
  split; [exact Hwf |].
  exact (requested_means_get_was_called Demo.opened 1 "theme" _ Hwf).
Defined.
